(** * A shallow embedding of the Loops API client (package [loops])

    The package is a thin HTTP+JSON client: a request dispatcher
    ([doRequest]), a validator for contact fields ([validateFields]) and one
    function per remote operation.  The repository holds two near-duplicate
    files of the package: [loops.go] and an older one.  They share
    [Client], [WithEndpoint], [WithHTTPClient] and [doRequest] verbatim and
    differ in the types [validateFields] accepts, in the HTTP method of
    [DeleteContact] and in the presence of [SendTransactional].  The shared
    code is embedded once; what differs lives in [Module Loops] (for
    [loops.go]) and [Module Older] (for the other file).

    Go maps are references: they live in a heap, and a map value is a
    heap location or nil.  Code that touches the heap or the network is
    written in a state monad over [World] whose computations may panic. *)

From stdpp Require Import gmap strings list fin_maps.
From Stdlib Require Import ZArith.

Local Open Scope string_scope.

(** ** Data *)

(** A Go [error], identified with its message. *)
Definition error := string.

(** [context.Context], as far as a caller can observe it when the call is
    made: [ctx.Err()] is nil or an error.  The package only passes it on. *)
Record Context := { ctx_err : option error }.

(** Heap locations of maps; a map value ([mapref]) is a location or nil. *)
Definition loc := positive.
Definition mapref := option loc.

Record SendEventRequest := {
  ev_Email : string;
  ev_EventName : string;
}.

Record SendTransactionalRequest := {
  tx_Email : string;
  tx_TransactionalID : string;
  tx_DataVariables : mapref;
}.

(** A value of interface type [any] with its dynamic type.  [AInt] is Go's
    [int] and nothing else: [int64], [float64], ... are types of their own.
    [AOther] stands for a value of any further type, named as [%T] prints
    it. *)
Inductive any :=
  | ANil
  | AString (s : string)
  | ABool (b : bool)
  | AInt (n : Z)
  | ATime (unix_nano : Z)
  | AInt64 (n : Z)
  | AFloat64 (bits : Z)
  | AMap (r : mapref)
  | AEvent (r : SendEventRequest)
  | ATransactional (r : SendTransactionalRequest)
  | AOther (tyname : string).

(** What the verb [%T] of package fmt prints for a value. *)
Definition typeName (v : any) : string :=
  match v with
  | ANil => "<nil>"
  | AString _ => "string"
  | ABool _ => "bool"
  | AInt _ => "int"
  | ATime _ => "time.Time"
  | AInt64 _ => "int64"
  | AFloat64 _ => "float64"
  | AMap _ => "map[string]interface {}"
  | AEvent _ => "loops.SendEventRequest"
  | ATransactional _ => "loops.SendTransactionalRequest"
  | AOther ty => ty
  end.

(** [body != nil] for a [body] of type [any]: only the nil interface is nil;
    an interface that holds a nil map is not. *)
Definition is_nil (v : any) : bool :=
  match v with ANil => true | _ => false end.

(** An [*http.Request] as [doRequest] builds it. *)
Record Request := {
  req_ctx : Context;
  req_Method : string;
  req_URL : string;
  req_Body : option string;
  req_Header : gmap string string;
}.

(** [resp.Body]: a stream that delivers [body_data] and then reports end of
    file, or the error [body_fail]. *)
Record Body := {
  body_data : string;
  body_fail : option error;
}.

Record Response := {
  StatusCode : Z;
  Status : string;
  resp_Body : Body;
}.

(** An [*http.Client] that is not nil: what [Do] answers to a request. *)
Definition HTTPClient := Request → Response + error.

Record Client := {
  apiKey : string;
  endpoint : string;
  client : option HTTPClient;
}.

Record CreateContactResponse := { cc_Success : bool; cc_ID : string }.
Record UpsertContactResponse := { uc_Success : bool; uc_ID : string }.
Record DeleteContactResponse := { dc_Success : bool; dc_Message : string }.
Record SendEventResponse := { se_Success : bool }.
Record SendTransactionalResponse := { st_Success : bool }.

(** ** The world: heap of maps and log of observable effects *)

Inductive Event :=
  | EvDo (req : Request)      (* client.Do(req) was called *)
  | EvRead (n : nat)          (* n bytes were read from resp.Body *)
  | EvClose.                  (* resp.Body.Close() was called *)

Record World := {
  heap : gmap loc (gmap string any);
  log : list Event;           (* in the order the events happened *)
}.

(** The entries of a map value; ranging over a nil map visits nothing. *)
Definition entries (h : gmap loc (gmap string any)) (r : mapref) : gmap string any :=
  match r with
  | None => ∅
  | Some l => default ∅ (h !! l)
  end.

(** What package encoding/json sees of a value it is asked to marshal: maps
    are read through the heap at that moment. *)
Inductive Payload :=
  | PMap (m : option (gmap string any))
  | PTransactional (email id : string) (vars : option (gmap string any))
  | PValue (v : any).

Definition snapshot_map (h : gmap loc (gmap string any)) (r : mapref) :
    option (gmap string any) :=
  match r with None => None | Some _ => Some (entries h r) end.

Definition payload (h : gmap loc (gmap string any)) (v : any) : Payload :=
  match v with
  | AMap r => PMap (snapshot_map h r)
  | ATransactional r =>
      PTransactional (tx_Email r) (tx_TransactionalID r)
        (snapshot_map h (tx_DataVariables r))
  | _ => PValue v
  end.

(** [json.NewDecoder(body).Decode(dst)] for a [dst] of type [*T]: the new
    contents of [*dst], the error if any, and how many bytes of the stream
    the decoder consumed. *)
Definition Decoder (T : Type) := Body → T → T * option error * nat.

(** The library functions and the run-time choices the package depends on. *)
Record Env := {
  (* the order in which a [range] statement visits a map *)
  range_order : gmap string any → list (string * any);
  json_Marshal : Payload → string + error;
  (* the error of http.NewRequestWithContext, if any, for a context, a
     method and a URL *)
  http_NewRequest_err : Context → string → string → option error;
  http_DefaultClient : HTTPClient;
  decode_CreateContactResponse : Decoder CreateContactResponse;
  decode_UpsertContactResponse : Decoder UpsertContactResponse;
  decode_DeleteContactResponse : Decoder DeleteContactResponse;
  decode_SendEventResponse : Decoder SendEventResponse;
  decode_SendTransactionalResponse : Decoder SendTransactionalResponse;
}.

(** A [range] statement visits every entry of the map exactly once. *)
Definition range_ok (env : Env) : Prop :=
  ∀ m, range_order env m ≡ₚ map_to_list m.

(** ** The monad *)

Inductive outcome (A : Type) :=
  | Ok (a : A) (w : World)
  | Panic (msg : string).
Arguments Ok {A} a w.
Arguments Panic {A} msg.

Definition M (A : Type) := World → outcome A.

#[global] Instance M_ret : MRet M := λ A a w, Ok a w.
#[global] Instance M_bind : MBind M := λ A B f m w,
  match m w with
  | Ok a w' => f a w'
  | Panic msg => Panic msg
  end.

Definition get_heap : M (gmap loc (gmap string any)) := λ w, Ok (heap w) w.

Definition emit (e : Event) : M unit :=
  λ w, Ok () {| heap := heap w; log := log w ++ [e] |}.

(** [map[string]any{}]: a new, empty map at a location not in use. *)
Definition map_make : M loc := λ w,
  let l := fresh (dom (heap w)) in
  Ok l {| heap := <[l := ∅]> (heap w); log := log w |}.

(** [m[k] = v]; assigning to an entry of a nil map panics. *)
Definition map_store (r : mapref) (k : string) (v : any) : M unit := λ w,
  match r with
  | None => Panic "assignment to entry in nil map"
  | Some l =>
      Ok () {| heap := <[l := <[k := v]> (entries (heap w) r)]> (heap w);
               log := log w |}
  end.

(** ** The field validator *)

(** [fmt.Errorf("invalid field type for %s: %T", k, v)] *)
Definition invalid_field_type (k : string) (v : any) : error :=
  "invalid field type for " +:+ k +:+ ": " +:+ typeName v.

Section validate.
(** The type switch of the loop body: [true] for the listed cases. *)
Variable allowed : any → bool.

(** The body of [for k, v := range fields], over the entries in the order
    they are visited; [Some err] when the loop returned early. *)
Fixpoint validate_loop (ret : loc) (kvs : list (string * any)) : M (option error) :=
  match kvs with
  | [] => mret None
  | (k, v) :: rest =>
      if decide (k = "email") then validate_loop ret rest
      else if allowed v then
        map_store (Some ret) k v;; validate_loop ret rest
      else mret (Some (invalid_field_type k v))
  end.

Definition validateFields_with (env : Env) (fields : mapref) :
    M (mapref * option error) :=
  ret ← map_make;
  h ← get_heap;
  e ← validate_loop ret (range_order env (entries h fields));
  match e with
  | Some err => mret (None, Some err)
  | None => mret (Some ret, None)
  end.
End validate.

(** ** Client configuration *)

(** [strings.HasSuffix] and [strings.TrimSuffix] of the Go library. *)
Definition HasSuffix (s suffix : string) : bool :=
  (String.length suffix <=? String.length s)%nat &&
  String.eqb
    (String.substring (String.length s - String.length suffix)
       (String.length suffix) s)
    suffix.

Definition TrimSuffix (s suffix : string) : string :=
  if HasSuffix s suffix
  then String.substring 0 (String.length s - String.length suffix) s
  else s.

Definition DefaultEndpoint : string := "https://app.loops.so/api/v1".

Definition NewClient (env : Env) (key : string) : Client :=
  {| apiKey := key;
     endpoint := DefaultEndpoint;
     client := Some (http_DefaultClient env) |}.

Definition WithEndpoint (c : Client) (e : string) : Client :=
  {| apiKey := apiKey c;
     endpoint := TrimSuffix e "/";
     client := client c |}.

Definition WithHTTPClient (c : Client) (cl : option HTTPClient) : Client :=
  {| apiKey := apiKey c;
     endpoint := endpoint c;
     client := cl |}.

(** ** The transport dispatcher *)

(** [http.NewRequestWithContext]: an empty method means GET, and the new
    request has an empty header. *)
Definition http_NewRequestWithContext (env : Env) (ctx : Context)
    (method url : string) (body : option string) : Request + error :=
  match http_NewRequest_err env ctx method url with
  | Some err => inr err
  | None =>
      inl {| req_ctx := ctx;
             req_Method := if decide (method = "") then "GET" else method;
             req_URL := url;
             req_Body := body;
             req_Header := ∅ |}
  end.

(** [req.Header.Set(k, v)]; both keys the package sets are already in
    canonical form. *)
Definition Header_Set (k v : string) (req : Request) : Request :=
  {| req_ctx := req_ctx req;
     req_Method := req_Method req;
     req_URL := req_URL req;
     req_Body := req_Body req;
     req_Header := <[k := v]> (req_Header req) |}.

(** The first part of [doRequest], up to the choice of the client: the
    request it builds, or the error it returns before any network call. *)
Definition newRequest (env : Env) (c : Client) (ctx : Context)
    (method path : string) (body : any) (h : gmap loc (gmap string any)) :
    Request + error :=
  let reqBody : option string + error :=
    if is_nil body then inl None
    else match json_Marshal env (payload h body) with
         | inl marshalled => inl (Some marshalled)
         | inr err => inr err
         end in
  match reqBody with
  | inr err => inr err
  | inl reqBody =>
      match http_NewRequestWithContext env ctx method (endpoint c +:+ path) reqBody with
      | inr err => inr err
      | inl req =>
          let req :=
            if reqBody is Some _
            then Header_Set "Content-Type" "application/json" req else req in
          let req :=
            if decide (apiKey c = "") then req
            else Header_Set "Authorization" ("Bearer " +:+ apiKey c) req in
          inl req
      end
  end.

(** [client.Do(req)] on a [*http.Client]; a nil client is dereferenced. *)
Definition client_Do (cl : option HTTPClient) (req : Request) : M (Response + error) :=
  match cl with
  | None => λ _, Panic "invalid memory address or nil pointer dereference"
  | Some do => emit (EvDo req);; mret (do req)
  end.

(** [io.ReadAll]: everything the stream delivers, and its error if any. *)
Definition io_ReadAll (b : Body) : M (string * option error) :=
  emit (EvRead (String.length (body_data b)));;
  mret (body_data b, body_fail b).

Definition json_Decode {T} (dec : Decoder T) (b : Body) (d : T) : M (T * option error) :=
  let '(d', err, n) := dec b d in
  emit (EvRead n);; mret (d', err).

(** [doRequest]; [dst] is [None] for a nil destination and otherwise the
    contents of the variable it points to.  The result is the error and the
    contents of that variable afterwards. *)
Definition doRequest {T} (env : Env) (dec : Decoder T) (c : Client)
    (ctx : Context) (method path : string) (body : any) (dst : option T) :
    M (option error * option T) :=
  h ← get_heap;
  match newRequest env c ctx method path body h with
  | inr err => mret (Some err, dst)
  | inl req =>
      let client := client c in
      let client := if client is None then Some (http_DefaultClient env) else client in
      r ← client_Do client req;
      match r with
      | inr err => mret (Some err, dst)
      | inl resp =>
          (* defer resp.Body.Close() *)
          out ← (if (400 <=? StatusCode resp)%Z then
                   '(buf, _) ← io_ReadAll (resp_Body resp);
                   mret (Some (Status resp +:+ ": " +:+ buf), dst)
                 else
                   match dst with
                   | Some d =>
                       '(d', err) ← json_Decode dec (resp_Body resp) d;
                       mret (err, Some d')
                   | None => mret (None, None)
                   end);
          emit EvClose;;
          mret out
      end
  end.

(** ** The operations of [loops.go] *)

Module Loops.

(** [case string, bool, int, time.Time:] *)
Definition allowed (v : any) : bool :=
  match v with
  | AString _ | ABool _ | AInt _ | ATime _ => true
  | _ => false
  end.

Definition validateFields (env : Env) (fields : mapref) :
    M (mapref * option error) :=
  validateFields_with allowed env fields.

Definition CreateContact (env : Env) (c : Client) (ctx : Context)
    (email : string) (fields : mapref) :
    M (option CreateContactResponse * option error) :=
  '(req, err) ← validateFields env fields;
  match err with
  | Some err => mret (None, Some err)
  | None =>
      map_store req "email" (AString email);;
      let resp := {| cc_Success := false; cc_ID := "" |} in
      '(err, resp) ← doRequest env (decode_CreateContactResponse env) c ctx
                       "POST" "/contacts/create" (AMap req) (Some resp);
      match err with
      | Some err => mret (None, Some err)
      | None => mret (resp, None)
      end
  end.

Definition UpsertContact (env : Env) (c : Client) (ctx : Context)
    (email : string) (fields : mapref) :
    M (option UpsertContactResponse * option error) :=
  '(req, err) ← validateFields env fields;
  match err with
  | Some err => mret (None, Some err)
  | None =>
      map_store req "email" (AString email);;
      let resp := {| uc_Success := false; uc_ID := "" |} in
      '(err, resp) ← doRequest env (decode_UpsertContactResponse env) c ctx
                       "PUT" "/contacts/update" (AMap req) (Some resp);
      match err with
      | Some err => mret (None, Some err)
      | None => mret (resp, None)
      end
  end.

Definition DeleteContact (env : Env) (c : Client) (ctx : Context)
    (email : string) :
    M (option DeleteContactResponse * option error) :=
  req ← map_make;
  map_store (Some req) "email" (AString email);;
  let resp := {| dc_Success := false; dc_Message := "" |} in
  '(err, resp) ← doRequest env (decode_DeleteContactResponse env) c ctx
                   "POST" "/contacts/delete" (AMap (Some req)) (Some resp);
  match err with
  | Some err => mret (None, Some err)
  | None => mret (resp, None)
  end.

Definition SendEvent (env : Env) (c : Client) (ctx : Context)
    (req : SendEventRequest) :
    M (option SendEventResponse * option error) :=
  let resp := {| se_Success := false |} in
  '(err, resp) ← doRequest env (decode_SendEventResponse env) c ctx
                   "POST" "/events/send" (AEvent req) (Some resp);
  match err with
  | Some err => mret (None, Some err)
  | None => mret (resp, None)
  end.

Definition SendTransactional (env : Env) (c : Client) (ctx : Context)
    (req : SendTransactionalRequest) :
    M (option SendTransactionalResponse * option error) :=
  let resp := {| st_Success := false |} in
  '(err, resp) ← doRequest env (decode_SendTransactionalResponse env) c ctx
                   "POST" "/transactional" (ATransactional req) (Some resp);
  match err with
  | Some err => mret (None, Some err)
  | None => mret (resp, None)
  end.

End Loops.

(** ** The operations of the older file *)

Module Older.

(** [case string, bool, int:] *)
Definition allowed (v : any) : bool :=
  match v with
  | AString _ | ABool _ | AInt _ => true
  | _ => false
  end.

(** This file's validator takes a context, which it does not use. *)
Definition validateFields (env : Env) (ctx : Context) (fields : mapref) :
    M (mapref * option error) :=
  validateFields_with allowed env fields.

Definition CreateContact (env : Env) (c : Client) (ctx : Context)
    (email : string) (fields : mapref) :
    M (option CreateContactResponse * option error) :=
  '(req, err) ← validateFields env ctx fields;
  match err with
  | Some err => mret (None, Some err)
  | None =>
      map_store req "email" (AString email);;
      let resp := {| cc_Success := false; cc_ID := "" |} in
      '(err, resp) ← doRequest env (decode_CreateContactResponse env) c ctx
                       "POST" "/contacts/create" (AMap req) (Some resp);
      match err with
      | Some err => mret (None, Some err)
      | None => mret (resp, None)
      end
  end.

Definition UpsertContact (env : Env) (c : Client) (ctx : Context)
    (email : string) (fields : mapref) :
    M (option UpsertContactResponse * option error) :=
  '(req, err) ← validateFields env ctx fields;
  match err with
  | Some err => mret (None, Some err)
  | None =>
      map_store req "email" (AString email);;
      let resp := {| uc_Success := false; uc_ID := "" |} in
      '(err, resp) ← doRequest env (decode_UpsertContactResponse env) c ctx
                       "PUT" "/contacts/update" (AMap req) (Some resp);
      match err with
      | Some err => mret (None, Some err)
      | None => mret (resp, None)
      end
  end.

Definition DeleteContact (env : Env) (c : Client) (ctx : Context)
    (email : string) :
    M (option DeleteContactResponse * option error) :=
  req ← map_make;
  map_store (Some req) "email" (AString email);;
  let resp := {| dc_Success := false; dc_Message := "" |} in
  '(err, resp) ← doRequest env (decode_DeleteContactResponse env) c ctx
                   "DELETE" "/contacts/delete" (AMap (Some req)) (Some resp);
  match err with
  | Some err => mret (None, Some err)
  | None => mret (resp, None)
  end.

Definition SendEvent (env : Env) (c : Client) (ctx : Context)
    (req : SendEventRequest) :
    M (option SendEventResponse * option error) :=
  let resp := {| se_Success := false |} in
  '(err, resp) ← doRequest env (decode_SendEventResponse env) c ctx
                   "POST" "/events/send" (AEvent req) (Some resp);
  match err with
  | Some err => mret (None, Some err)
  | None => mret (resp, None)
  end.

End Older.

(** ** Observations on the log *)

(** The requests handed to a client, oldest first. *)
Fixpoint requests (l : list Event) : list Request :=
  match l with
  | [] => []
  | EvDo req :: l => req :: requests l
  | _ :: l => requests l
  end.

(** How many bytes of the response body were read. *)
Fixpoint bytes_read (l : list Event) : nat :=
  match l with
  | [] => 0
  | EvRead n :: l => n + bytes_read l
  | _ :: l => bytes_read l
  end.

(** The body was read to its end. *)
Definition drained (b : Body) (l : list Event) : Prop :=
  (String.length (body_data b) ≤ bytes_read l)%nat.

Definition closed (l : list Event) : Prop := EvClose ∈ l.

(** An operation on the client [c] that always returns, and hands at most
    one request to a client: if one, a request with this method for the
    configured endpoint followed by this path. *)
Definition calls_only {A} (op : M A) (c : Client) (method path : string) : Prop :=
  ∀ w, ∃ r w', op w = Ok r w' ∧
    (requests (log w') = requests (log w) ∨
     ∃ req, requests (log w') = (requests (log w) ++ [req])%list ∧
            req_Method req = method ∧ req_URL req = endpoint c +:+ path).

(** The computation [op] returns from every world, and the world it starts
    in, its result and the world it ends in satisfy [post]. *)
Definition always {A} (op : M A) (post : World → A → World → Prop) : Prop :=
  ∀ w, ∃ a w', op w = Ok a w' ∧ post w a w'.

(** No map that existed in [w] differs in [w']. *)
Definition maps_kept (w w' : World) : Prop :=
  ∀ l, l ∈ dom (heap w) → heap w' !! l = heap w !! l.

(** What an operation returns: a response and no error, or no response and
    an error. *)
Definition response_xor_error {R} (r : option R * option error) : Prop :=
  (∃ resp, r = (Some resp, None)) ∨ (∃ err, r = (None, Some err)).


(** ** The validation loop as a pure function *)

Section validate_pure.
Variable allowed : any → bool.

(** The entry at which the loop returns early, if any. *)
Fixpoint first_invalid (kvs : list (string * any)) : option (string * any) :=
  match kvs with
  | [] => None
  | (k, v) :: rest =>
      if decide (k = "email") then first_invalid rest
      else if allowed v then first_invalid rest
      else Some (k, v)
  end.

(** The contents of [ret] when the loop ends, from its contents [acc]
    when the loop starts. *)
Fixpoint copied (acc : gmap string any) (kvs : list (string * any)) : gmap string any :=
  match kvs with
  | [] => acc
  | (k, v) :: rest =>
      if decide (k = "email") then copied acc rest
      else if allowed v then copied (<[k := v]> acc) rest
      else acc
  end.
End validate_pure.

(** ** A concrete environment, for closed examples *)

Module Demo.

Definition ok_body : Body :=
  {| body_data := "{}"; body_fail := None |}.

(** A transport that answers every request with 200 OK. *)
Definition always_ok : HTTPClient := λ _,
  inl {| StatusCode := 200; Status := "200 OK"; resp_Body := ok_body |}.

(** A transport that answers every request with 400 and a body whose
    reader fails after the data. *)
Definition always_bad : HTTPClient := λ _,
  inl {| StatusCode := 400; Status := "400 Bad Request";
         resp_Body := {| body_data := "bad request";
                         body_fail := Some "unexpected EOF" |} |}.

(** A decoder that accepts any body, leaves the destination as it is and
    consumes the whole stream. *)
Definition accept {T} : Decoder T := λ b d,
  (d, None, String.length (body_data b)).

Definition env : Env :=
  {| range_order := map_to_list;
     json_Marshal := λ _, inl "{}";
     http_NewRequest_err := λ _ _ _, None;
     http_DefaultClient := always_ok;
     decode_CreateContactResponse := accept;
     decode_UpsertContactResponse := accept;
     decode_DeleteContactResponse := accept;
     decode_SendEventResponse := accept;
     decode_SendTransactionalResponse := accept |}.

Definition ctx : Context := {| ctx_err := None |}.

Definition cl : Client :=
  {| apiKey := "k"; endpoint := DefaultEndpoint; client := Some always_ok |}.

(** A world with one map, at location 1. *)
Definition world (m : gmap string any) : World :=
  {| heap := {[ 1%positive := m ]}; log := [] |}.

(** A transport that cannot reach the service. *)
Definition unreachable : HTTPClient := λ _, inr "dial tcp: connection refused".

(** A decoder that reads a successful creation with the id abc. *)
Definition decode_created : Decoder CreateContactResponse := λ b _,
  ({| cc_Success := true; cc_ID := "abc" |}, None, String.length (body_data b)).

(** The environment [env] with another iteration order, marshaller and
    request check. *)
Definition env_with (order : gmap string any → list (string * any))
    (marshal : Payload → string + error)
    (check : Context → string → string → option error) : Env :=
  {| range_order := order;
     json_Marshal := marshal;
     http_NewRequest_err := check;
     http_DefaultClient := always_ok;
     decode_CreateContactResponse := decode_created;
     decode_UpsertContactResponse := accept;
     decode_DeleteContactResponse := accept;
     decode_SendEventResponse := accept;
     decode_SendTransactionalResponse := accept |}.

(** Maps ranged in the reverse of the order [env] ranges them in. *)
Definition env_rev : Env :=
  env_with (λ m, reverse (map_to_list m)) (λ _, inl "{}") (λ _ _ _, None).

(** A marshaller that fails. *)
Definition env_no_marshal : Env :=
  env_with map_to_list (λ _, inr "json: unsupported value") (λ _ _ _, None).

(** A request constructor that rejects every URL. *)
Definition env_bad_url : Env :=
  env_with map_to_list (λ _, inl "{}") (λ _ _ _, Some "parse: invalid URL").

End Demo.

(** * Properties *)

(** ** Running monadic code *)

Lemma bind_Ok {A B} (m : M A) (f : A → M B) w a w' :
  m w = Ok a w' → (m ≫= f) w = f a w'.
Proof. intros H. unfold mbind, M_bind. by rewrite H. Qed.

Lemma world_eta w : {| heap := heap w; log := log w |} = w.
Proof. by destruct w. Qed.

Lemma entries_insert_fresh h l r :
  h !! l = None → entries (<[l := ∅]> h) r = entries h r.
Proof.
  intros Hl. destruct r as [l'|]; [|done]. simpl.
  destruct (decide (l = l')) as [->|Hne].
  - by rewrite lookup_insert_eq, Hl.
  - by rewrite lookup_insert_ne.
Qed.

Lemma fresh_heap (h : gmap loc (gmap string any)) : h !! fresh (dom h) = None.
Proof. apply not_elem_of_dom, is_fresh. Qed.

(** ** The validation loop *)

Section validate_facts.
Variable allowed : any → bool.

Lemma first_invalid_Some kvs k v :
  first_invalid allowed kvs = Some (k, v) →
  (k, v) ∈ kvs ∧ k ≠ "email" ∧ allowed v = false.
Proof.
  induction kvs as [|[k' v'] rest IH]; simpl; [done|].
  case_decide as Hk.
  - intros H. destruct (IH H) as (?&?&?). split; [by right | done].
  - destruct (allowed v') eqn:Hv.
    + intros H. destruct (IH H) as (?&?&?). split; [by right | done].
    + intros [= -> ->]. split; [by left | done].
Qed.

Lemma first_invalid_None kvs :
  first_invalid allowed kvs = None ↔
  ∀ k v, (k, v) ∈ kvs → k ≠ "email" → allowed v = true.
Proof.
  induction kvs as [|[k' v'] rest IH]; simpl.
  - split; [|done]. intros _ k v Hin. by apply elem_of_nil in Hin.
  - split.
    + intros H k v Hin Hk. apply elem_of_cons in Hin as [[= -> ->]|Hin].
      * case_decide; [done|]. by destruct (allowed v').
      * apply (proj1 IH) with k; [|done..].
        case_decide; [done|]. by destruct (allowed v').
    + intros H. assert (first_invalid allowed rest = None) as Hrest.
      { apply IH. intros k v Hin. apply H. by right. }
      case_decide; [done|]. rewrite (H k' v'); [done|by left|done].
Qed.

(** The loop never writes the key [email]. *)
Lemma copied_lookup_email acc kvs :
  copied allowed acc kvs !! "email" = acc !! "email".
Proof.
  revert acc. induction kvs as [|[k v] rest IH]; intros acc; simpl; [done|].
  case_decide; [done|]. destruct (allowed v); [|done].
  rewrite IH. by rewrite lookup_insert_ne.
Qed.

Lemma copied_lookup acc kvs k :
  NoDup kvs.*1 → first_invalid allowed kvs = None → k ≠ "email" →
  copied allowed acc kvs !! k =
    match (list_to_map kvs : gmap string any) !! k with
    | Some v => Some v
    | None => acc !! k
    end.
Proof.
  revert acc. induction kvs as [|[k' v'] rest IH]; intros acc Hnd Hfi Hk; simpl in *.
  - by rewrite lookup_empty.
  - apply NoDup_cons in Hnd as [Hnotin Hnd].
    case_decide as Hk'.
    + subst k'. rewrite lookup_insert_ne by done. by apply IH.
    + destruct (allowed v'); [|done]. rewrite IH by done.
      destruct (decide (k' = k)) as [->|Hne].
      * rewrite lookup_insert_eq.
        by rewrite (not_elem_of_list_to_map_1 rest k), lookup_insert_eq.
      * by rewrite !lookup_insert_ne.
Qed.

(** When every entry passes, the loop copies the map without [email]. *)
Lemma copied_all (m : gmap string any) kvs :
  kvs ≡ₚ map_to_list m → first_invalid allowed kvs = None →
  copied allowed ∅ kvs = delete "email" m.
Proof.
  intros Hperm Hfi. apply map_eq. intros k.
  destruct (decide (k = "email")) as [->|Hk].
  - by rewrite copied_lookup_email, lookup_delete_eq, lookup_empty.
  - assert (NoDup kvs.*1) as Hnd.
    { rewrite Hperm. apply NoDup_fst_map_to_list. }
    rewrite copied_lookup, lookup_delete_ne by done.
    rewrite (list_to_map_proper kvs (map_to_list m)) by done.
    rewrite list_to_map_to_list, lookup_empty. by destruct (m !! k).
Qed.

Lemma validate_loop_run ret kvs w acc :
  heap w !! ret = Some acc →
  validate_loop allowed ret kvs w =
    Ok (uncurry invalid_field_type <$> first_invalid allowed kvs)
       {| heap := <[ret := copied allowed acc kvs]> (heap w); log := log w |}.
Proof.
  revert w acc. induction kvs as [|[k v] rest IH]; intros w acc Hret; simpl.
  - rewrite insert_id by done. by rewrite world_eta.
  - case_decide; [by apply IH|].
    destruct (allowed v).
    + erewrite bind_Ok; [|reflexivity]. simpl.
      erewrite IH; [|simpl; apply lookup_insert_eq]. simpl.
      by rewrite Hret, insert_insert_eq.
    + rewrite insert_id by done. by rewrite world_eta.
Qed.

(** [validateFields] always returns, and what it returns. *)
Lemma validateFields_with_run env fields w :
  let l := fresh (dom (heap w)) in
  let kvs := range_order env (entries (heap w) fields) in
  validateFields_with allowed env fields w =
    Ok match first_invalid allowed kvs with
       | Some (k, v) => (None, Some (invalid_field_type k v))
       | None => (Some l, None)
       end
       {| heap := <[l := copied allowed ∅ kvs]> (heap w); log := log w |}.
Proof.
  intros l kvs. unfold validateFields_with.
  erewrite bind_Ok; [|reflexivity].
  erewrite bind_Ok; [|reflexivity]. simpl.
  rewrite entries_insert_fresh by apply fresh_heap. fold l kvs.
  erewrite bind_Ok; [|apply validate_loop_run; simpl; apply lookup_insert_eq].
  simpl. rewrite insert_insert_eq.
  by destruct (first_invalid allowed kvs) as [[k v]|].
Qed.
End validate_facts.

Lemma range_ok_example : range_ok Demo.env.
Proof. intros m. reflexivity. Defined.

Section validate_specs.
Variable allowed : any → bool.
Variable env : Env.
Hypothesis Hrange : range_ok env.

Lemma elem_of_range (m : gmap string any) k v :
  (k, v) ∈ range_order env m ↔ m !! k = Some v.
Proof. rewrite (Hrange m). apply elem_of_map_to_list. Qed.

(** The returned map has no key [email]; an error is about another key. *)
Lemma validateFields_with_email fields w :
  ∃ r e w', validateFields_with allowed env fields w = Ok (r, e) w' ∧
    (∀ l, r = Some l → ∃ m, heap w' !! l = Some m ∧ m !! "email" = None) ∧
    (∀ err, e = Some err → ∃ k v,
        entries (heap w) fields !! k = Some v ∧ k ≠ "email" ∧
        err = invalid_field_type k v).
Proof.
  rewrite validateFields_with_run.
  destruct (first_invalid _ _) as [[k v]|] eqn:Hfi.
  - do 3 eexists. split; [done|]. split; [done|].
    intros err [= <-]. apply first_invalid_Some in Hfi as (Hin & Hk & _).
    exists k, v. by rewrite <- elem_of_range.
  - do 3 eexists. split; [done|]. split; [|done].
    intros l [= <-]. simpl. eexists. rewrite lookup_insert_eq.
    split; [done|]. by rewrite copied_lookup_email.
Qed.

(** A disallowed entry makes validation fail, with no map returned. *)
Lemma validateFields_with_reject fields w k v :
  entries (heap w) fields !! k = Some v → k ≠ "email" → allowed v = false →
  ∃ k' v' w',
    validateFields_with allowed env fields w =
      Ok (None, Some (invalid_field_type k' v')) w' ∧
    entries (heap w) fields !! k' = Some v' ∧ k' ≠ "email" ∧
    allowed v' = false.
Proof.
  intros Hin Hk Hv. rewrite validateFields_with_run.
  destruct (first_invalid _ _) as [[k' v']|] eqn:Hfi.
  - apply first_invalid_Some in Hfi as (Hin' & Hk' & Hv').
    exists k', v'. eexists. by rewrite <- elem_of_range.
  - rewrite first_invalid_None in Hfi.
    rewrite (Hfi k v) in Hv; [done| |done]. by apply elem_of_range.
Qed.

(** When every entry passes, the result is a new map: the input without
    [email]. *)
Lemma validateFields_with_accept fields w :
  (∀ k v, entries (heap w) fields !! k = Some v → k ≠ "email" →
          allowed v = true) →
  validateFields_with allowed env fields w =
    Ok (Some (fresh (dom (heap w))), None)
       {| heap := <[fresh (dom (heap w)) :=
                      delete "email" (entries (heap w) fields)]> (heap w);
          log := log w |}.
Proof.
  intros Hall. rewrite validateFields_with_run.
  assert (first_invalid allowed (range_order env (entries (heap w) fields)) = None)
    as Hfi.
  { apply first_invalid_None. intros k v Hin. apply Hall. by apply elem_of_range. }
  rewrite Hfi. by rewrite (copied_all allowed (entries (heap w) fields)).
Qed.

Lemma validateFields_with_fresh_copy fields w :
  (∀ k v, entries (heap w) fields !! k = Some v → k ≠ "email" →
          allowed v = true) →
  ∃ l w',
    validateFields_with allowed env fields w = Ok (Some l, None) w' ∧
    (l ∉ dom (heap w)) ∧
    heap w' !! l = Some (delete "email" (entries (heap w) fields)) ∧
    (∀ l', l' ≠ l → heap w' !! l' = heap w !! l') ∧
    log w' = log w ∧
    ∀ email, ∃ w'',
      map_store (Some l) "email" (AString email) w' = Ok () w'' ∧
      heap w'' !! l =
        Some (<["email" := AString email]> (delete "email" (entries (heap w) fields))) ∧
      (∀ l', l' ∈ dom (heap w) → heap w'' !! l' = heap w !! l') ∧
      log w'' = log w.
Proof.
  intros Hall. do 2 eexists. split; [by apply validateFields_with_accept|].
  split; [apply is_fresh|]. simpl. split; [apply lookup_insert_eq|].
  split; [intros l' Hl'; by rewrite lookup_insert_ne|]. split; [done|].
  intros email. eexists. split; [done|]. simpl.
  rewrite !lookup_insert_eq. simpl. split; [done|]. split; [|done].
  intros l' Hl'.
  assert (fresh (dom (heap w)) ≠ l') as Hne.
  { intros <-. by apply (is_fresh (dom (heap w))). }
  by rewrite !lookup_insert_ne.
Qed.
End validate_specs.

(** ** The allowed types of the two files *)

Lemma Loops_allowed_iff v :
  Loops.allowed v = true ↔
  (∃ s, v = AString s) ∨ (∃ b, v = ABool b) ∨ (∃ n, v = AInt n) ∨
  (∃ t, v = ATime t).
Proof.
  split.
  - destruct v; simpl; try done; eauto 6.
  - intros [[? ->]|[[? ->]|[[? ->]|[? ->]]]]; done.
Qed.

Lemma Older_allowed_iff v :
  Older.allowed v = true ↔
  (∃ s, v = AString s) ∨ (∃ b, v = ABool b) ∨ (∃ n, v = AInt n).
Proof.
  split.
  - destruct v; simpl; try done; eauto 6.
  - intros [[? ->]|[[? ->]|[? ->]]]; done.
Qed.

(** ** The field validator of both files *)

(** C1. In both files the map that [validateFields] returns never has the
    key [email], whatever value the input gives it, and the entry is dropped
    without an error: when the validator fails, the error is about an entry
    of the input under another key. *)
Theorem validateFields_never_email env ctx fields w :
  range_ok env →
  (∃ r e w', Loops.validateFields env fields w = Ok (r, e) w' ∧
     (∀ l, r = Some l → ∃ m, heap w' !! l = Some m ∧ m !! "email" = None) ∧
     (∀ err, e = Some err → ∃ k v,
         entries (heap w) fields !! k = Some v ∧ k ≠ "email" ∧
         err = invalid_field_type k v)) ∧
  (∃ r e w', Older.validateFields env ctx fields w = Ok (r, e) w' ∧
     (∀ l, r = Some l → ∃ m, heap w' !! l = Some m ∧ m !! "email" = None) ∧
     (∀ err, e = Some err → ∃ k v,
         entries (heap w) fields !! k = Some v ∧ k ≠ "email" ∧
         err = invalid_field_type k v)).
Proof.
  intros Hrange. split.
  - by apply validateFields_with_email.
  - by apply validateFields_with_email.
Qed.

(** An [email] entry of a type no file allows is dropped all the same. *)
Lemma validateFields_never_email_witness :
  let w := Demo.world {[ "email" := AFloat64 0; "name" := AString "Ada" ]} in
  range_ok Demo.env ∧
  ∃ r e w', Loops.validateFields Demo.env (Some 1%positive) w = Ok (r, e) w' ∧
    (∀ l, r = Some l → ∃ m, heap w' !! l = Some m ∧ m !! "email" = None).
Proof.
  intros w. split; [exact range_ok_example|].
  destruct (validateFields_never_email Demo.env Demo.ctx (Some 1%positive) w
              range_ok_example) as [(r & e & w' & Hrun & Hmail & _) _].
  exists r, e, w'. split; assumption.
Defined.

(** C2, as the claim states it, fails on the older file: a timestamp, which
    the claim counts among the allowed types and which [loops.go] accepts,
    is rejected there. *)
Lemma validateFields_timestamp_rejected :
  let w := Demo.world {[ "joined" := ATime 0 ]} in
  Loops.allowed (ATime 0) = true ∧
  ∃ w', Older.validateFields Demo.env Demo.ctx (Some 1%positive) w =
          Ok (None, Some "invalid field type for joined: time.Time") w'.
Proof. split; [reflexivity|]. eexists. vm_compute. reflexivity. Qed.

(** C2, amended.  Each file has its own allowed set: string, bool, int and
    time.Time in [loops.go]; string, bool and int in the older file, where a
    timestamp is rejected like any other type.  In both files an entry under
    a key other than [email] whose type is outside the file's set makes
    [validateFields] fail with no map and an error that names such an entry
    and its type; when every such entry has a type of the set, the check
    passes. *)
Theorem validateFields_type_check env ctx fields w :
  range_ok env →
  (* loops.go *)
  ((∀ v, Loops.allowed v = true ↔
         (∃ s, v = AString s) ∨ (∃ b, v = ABool b) ∨ (∃ n, v = AInt n) ∨
         (∃ t, v = ATime t)) ∧
   (∀ k v, entries (heap w) fields !! k = Some v → k ≠ "email" →
      Loops.allowed v = false →
      ∃ k' v' w',
        Loops.validateFields env fields w =
          Ok (None, Some ("invalid field type for " +:+ k' +:+ ": " +:+ typeName v')) w' ∧
        entries (heap w) fields !! k' = Some v' ∧ k' ≠ "email" ∧
        Loops.allowed v' = false) ∧
   ((∀ k v, entries (heap w) fields !! k = Some v → k ≠ "email" →
       Loops.allowed v = true) →
    ∃ l w', Loops.validateFields env fields w = Ok (Some l, None) w')) ∧
  (* the older file *)
  ((∀ v, Older.allowed v = true ↔
         (∃ s, v = AString s) ∨ (∃ b, v = ABool b) ∨ (∃ n, v = AInt n)) ∧
   (∀ k v, entries (heap w) fields !! k = Some v → k ≠ "email" →
      Older.allowed v = false →
      ∃ k' v' w',
        Older.validateFields env ctx fields w =
          Ok (None, Some ("invalid field type for " +:+ k' +:+ ": " +:+ typeName v')) w' ∧
        entries (heap w) fields !! k' = Some v' ∧ k' ≠ "email" ∧
        Older.allowed v' = false) ∧
   ((∀ k v, entries (heap w) fields !! k = Some v → k ≠ "email" →
       Older.allowed v = true) →
    ∃ l w', Older.validateFields env ctx fields w = Ok (Some l, None) w')).
Proof.
  intros Hrange. split; (split; [|split]).
  - apply Loops_allowed_iff.
  - intros k v. by apply validateFields_with_reject.
  - intros Hall. do 2 eexists. by apply validateFields_with_accept.
  - apply Older_allowed_iff.
  - intros k v. by apply validateFields_with_reject.
  - intros Hall. do 2 eexists. by apply validateFields_with_accept.
Qed.

(** A float64 field is rejected by [loops.go], and the error names it. *)
Lemma validateFields_type_check_witness :
  let w := Demo.world {[ "score" := AFloat64 0; "name" := AString "Ada" ]} in
  range_ok Demo.env ∧
  ∃ k' v' w',
    Loops.validateFields Demo.env (Some 1%positive) w =
      Ok (None, Some ("invalid field type for " +:+ k' +:+ ": " +:+ typeName v')) w' ∧
    entries (heap w) (Some 1%positive) !! k' = Some v' ∧ k' ≠ "email" ∧
    Loops.allowed v' = false.
Proof.
  intros w. split; [exact range_ok_example|].
  destruct (validateFields_type_check Demo.env Demo.ctx (Some 1%positive) w
              range_ok_example) as [(_ & Hreject & _) _].
  apply (Hreject "score" (AFloat64 0)); [reflexivity|discriminate|reflexivity].
Defined.

(** C3. In both files, when every entry under a key other than [email] has
    an allowed type (also for an empty or a nil map), [validateFields]
    succeeds and returns a map at a location that was not in use before the
    call, so it is no map that existed then; its contents are the input's
    without [email], every other map is as it was, and storing [email] in it
    afterwards adds the key to it and changes no map that existed before the
    call. *)
Theorem validateFields_fresh_copy env ctx fields w :
  range_ok env →
  ((∀ k v, entries (heap w) fields !! k = Some v → k ≠ "email" →
      Loops.allowed v = true) →
   ∃ l w',
     Loops.validateFields env fields w = Ok (Some l, None) w' ∧
     (l ∉ dom (heap w)) ∧
     heap w' !! l = Some (delete "email" (entries (heap w) fields)) ∧
     (∀ l', l' ≠ l → heap w' !! l' = heap w !! l') ∧
     log w' = log w ∧
     ∀ email, ∃ w'',
       map_store (Some l) "email" (AString email) w' = Ok () w'' ∧
       heap w'' !! l =
         Some (<["email" := AString email]> (delete "email" (entries (heap w) fields))) ∧
       (∀ l', l' ∈ dom (heap w) → heap w'' !! l' = heap w !! l') ∧
       log w'' = log w) ∧
  ((∀ k v, entries (heap w) fields !! k = Some v → k ≠ "email" →
      Older.allowed v = true) →
   ∃ l w',
     Older.validateFields env ctx fields w = Ok (Some l, None) w' ∧
     (l ∉ dom (heap w)) ∧
     heap w' !! l = Some (delete "email" (entries (heap w) fields)) ∧
     (∀ l', l' ≠ l → heap w' !! l' = heap w !! l') ∧
     log w' = log w ∧
     ∀ email, ∃ w'',
       map_store (Some l) "email" (AString email) w' = Ok () w'' ∧
       heap w'' !! l =
         Some (<["email" := AString email]> (delete "email" (entries (heap w) fields))) ∧
       (∀ l', l' ∈ dom (heap w) → heap w'' !! l' = heap w !! l') ∧
       log w'' = log w).
Proof.
  intros Hrange. split; intros Hall.
  - by apply validateFields_with_fresh_copy.
  - by apply validateFields_with_fresh_copy.
Qed.

(** The nil map and a map with an [email] entry, on the older file. *)
Lemma validateFields_fresh_copy_witness :
  let w := Demo.world {[ "email" := AString "x@y.z"; "age" := AInt 36 ]} in
  range_ok Demo.env ∧
  (∃ l w', Loops.validateFields Demo.env None w = Ok (Some l, None) w' ∧
           heap w' !! l = Some (delete "email" ∅)) ∧
  (∃ l w', Older.validateFields Demo.env Demo.ctx (Some 1%positive) w =
             Ok (Some l, None) w' ∧
           (l ∉ dom (heap w)) ∧
           heap w' !! l = Some (delete "email" (entries (heap w) (Some 1%positive)))).
Proof.
  intros w. split; [exact range_ok_example|]. split.
  - destruct (validateFields_fresh_copy Demo.env Demo.ctx None w
                range_ok_example) as [Hloops _].
    destruct Hloops as (l & w' & Hrun & _ & Hl & _).
    { intros k v Hkv. simpl in Hkv. rewrite lookup_empty in Hkv. discriminate. }
    exists l, w'. split; assumption.
  - destruct (validateFields_fresh_copy Demo.env Demo.ctx (Some 1%positive) w
                range_ok_example) as [_ Holder].
    destruct Holder as (l & w' & Hrun & Hfresh & Hl & _).
    { intros k v Hkv Hk. unfold w, Demo.world, entries in Hkv.
      cbn [heap] in Hkv. rewrite lookup_singleton_eq in Hkv.
      cbn [default from_option id] in Hkv.
      rewrite lookup_insert_ne in Hkv by congruence.
      apply lookup_singleton_Some in Hkv as [_ <-]. reflexivity. }
    exists l, w'. repeat split; assumption.
Defined.

(** C4. In both files a failing [validateFields] returns no map, and
    [CreateContact] and [UpsertContact] then return its error as it is, with
    no response, and hand no request to a client: the log of the world they
    end in is that of the world they started from. *)
Theorem validation_error_propagates env c ctx email fields w r err w' :
  (Loops.validateFields env fields w = Ok (r, Some err) w' →
   r = None ∧ log w' = log w ∧
   Loops.CreateContact env c ctx email fields w = Ok (None, Some err) w' ∧
   Loops.UpsertContact env c ctx email fields w = Ok (None, Some err) w') ∧
  (Older.validateFields env ctx fields w = Ok (r, Some err) w' →
   r = None ∧ log w' = log w ∧
   Older.CreateContact env c ctx email fields w = Ok (None, Some err) w' ∧
   Older.UpsertContact env c ctx email fields w = Ok (None, Some err) w').
Proof.
  split; intros Hrun.
  - split; [|split; [|split]].
    + unfold Loops.validateFields in Hrun.
      rewrite validateFields_with_run in Hrun.
      destruct (first_invalid _ _) as [[k v]|]; by inversion Hrun.
    + unfold Loops.validateFields in Hrun.
      rewrite validateFields_with_run in Hrun.
      destruct (first_invalid _ _) as [[k v]|]; by inversion Hrun.
    + unfold Loops.CreateContact. by rewrite (bind_Ok _ _ _ _ _ Hrun).
    + unfold Loops.UpsertContact. by rewrite (bind_Ok _ _ _ _ _ Hrun).
  - split; [|split; [|split]].
    + unfold Older.validateFields in Hrun.
      rewrite validateFields_with_run in Hrun.
      destruct (first_invalid _ _) as [[k v]|]; by inversion Hrun.
    + unfold Older.validateFields in Hrun.
      rewrite validateFields_with_run in Hrun.
      destruct (first_invalid _ _) as [[k v]|]; by inversion Hrun.
    + unfold Older.CreateContact. by rewrite (bind_Ok _ _ _ _ _ Hrun).
    + unfold Older.UpsertContact. by rewrite (bind_Ok _ _ _ _ _ Hrun).
Qed.

(** A contact with a float64 field: no request reaches the transport. *)
Lemma validation_error_propagates_witness :
  let w := Demo.world {[ "score" := AFloat64 0 ]} in
  let w' := {| heap := <[2%positive := ∅]> (heap w); log := [] |} in
  let err := "invalid field type for score: float64" in
  Loops.validateFields Demo.env (Some 1%positive) w = Ok (None, Some err) w' ∧
  Loops.CreateContact Demo.env Demo.cl Demo.ctx "a@b.c" (Some 1%positive) w =
    Ok (None, Some err) w' ∧
  log w' = log w.
Proof.
  intros w w' err.
  assert (Loops.validateFields Demo.env (Some 1%positive) w = Ok (None, Some err) w')
    as Hrun by (vm_compute; reflexivity).
  destruct (validation_error_propagates Demo.env Demo.cl Demo.ctx "a@b.c"
              (Some 1%positive) w None err w') as [Hloops _].
  destruct (Hloops Hrun) as (_ & Hlog & Hcreate & _).
  split; [exact Hrun|]. split; [exact Hcreate|exact Hlog].
Defined.

(** ** The dispatcher *)

Lemma requests_app l1 l2 : requests (l1 ++ l2) = (requests l1 ++ requests l2)%list.
Proof.
  induction l1 as [|[req|n|] l1 IH]; simpl; [done| |done..]. by rewrite IH.
Qed.

(** What [newRequest] puts in the request it builds. *)
Lemma newRequest_inl env c ctx method path body h req :
  newRequest env c ctx method path body h = inl req →
  req_ctx req = ctx ∧
  req_Method req = (if decide (method = "") then "GET" else method) ∧
  req_URL req = endpoint c +:+ path ∧
  (if is_nil body then req_Body req = None
   else ∃ bytes, json_Marshal env (payload h body) = inl bytes ∧
                 req_Body req = Some bytes) ∧
  req_Header req !! "Content-Type" =
    (if is_nil body then None else Some "application/json") ∧
  req_Header req !! "Authorization" =
    (if decide (apiKey c = "") then None else Some ("Bearer " +:+ apiKey c)).
Proof.
  unfold newRequest, http_NewRequestWithContext.
  destruct (is_nil body) eqn:Hnil.
  - destruct (http_NewRequest_err _ _ _ _); [done|].
    case_decide; intros [= <-]; simpl; repeat split; eauto; by simplify_map_eq.
  - destruct (json_Marshal _ _) as [bytes|err]; [|done].
    destruct (http_NewRequest_err _ _ _ _); [done|].
    case_decide; intros [= <-]; simpl; repeat split; eauto; by simplify_map_eq.
Qed.

(** [doRequest] always returns; its result and its effects, case by case. *)
Lemma doRequest_run {T} env (dec : Decoder T) c ctx method path body dst w :
  doRequest env dec c ctx method path body dst w =
    match newRequest env c ctx method path body (heap w) with
    | inr err => Ok (Some err, dst) w
    | inl req =>
        match default (http_DefaultClient env) (client c) req with
        | inr err =>
            Ok (Some err, dst) {| heap := heap w; log := log w ++ [EvDo req] |}
        | inl resp =>
            if (400 <=? StatusCode resp)%Z then
              Ok (Some (Status resp +:+ ": " +:+ body_data (resp_Body resp)), dst)
                 {| heap := heap w;
                    log := log w ++
                      [EvDo req;
                       EvRead (String.length (body_data (resp_Body resp)));
                       EvClose] |}
            else
              match dst with
              | None =>
                  Ok (None, None)
                     {| heap := heap w; log := log w ++ [EvDo req; EvClose] |}
              | Some d =>
                  Ok ((dec (resp_Body resp) d).1.2, Some (dec (resp_Body resp) d).1.1)
                     {| heap := heap w;
                        log := log w ++
                          [EvDo req; EvRead (dec (resp_Body resp) d).2; EvClose] |}
              end
        end
    end.
Proof.
  unfold doRequest. erewrite bind_Ok; [|reflexivity].
  destruct (newRequest _ _ _ _ _ _ _) as [req|err]; [|done].
  destruct (client c) as [do|]; simpl.
  - unfold mbind, M_bind, emit, mret, M_ret; simpl.
    destruct (do req) as [resp|err]; [|done].
    destruct (400 <=? StatusCode resp)%Z; simpl.
    + by rewrite <- !app_assoc.
    + destruct dst as [d|]; simpl.
      * unfold json_Decode. destruct (dec (resp_Body resp) d) as [[d' e] n]; simpl.
        by rewrite <- !app_assoc.
      * by rewrite <- !app_assoc.
  - unfold mbind, M_bind, emit, mret, M_ret; simpl.
    destruct (http_DefaultClient env req) as [resp|err]; [|done].
    destruct (400 <=? StatusCode resp)%Z; simpl.
    + by rewrite <- !app_assoc.
    + destruct dst as [d|]; simpl.
      * unfold json_Decode. destruct (dec (resp_Body resp) d) as [[d' e] n]; simpl.
        by rewrite <- !app_assoc.
      * by rewrite <- !app_assoc.
Qed.

(** The dispatcher leaves the heap alone and hands over at most one request:
    the one [newRequest] built. *)
Lemma doRequest_requests {T} env (dec : Decoder T) c ctx method path body dst w :
  ∃ r w', doRequest env dec c ctx method path body dst w = Ok r w' ∧
    heap w' = heap w ∧
    match newRequest env c ctx method path body (heap w) with
    | inr err => r = (Some err, dst) ∧ log w' = log w
    | inl req => requests (log w') = (requests (log w) ++ [req])%list
    end.
Proof.
  rewrite doRequest_run.
  destruct (newRequest _ _ _ _ _ _ _) as [req|err];
    [|do 2 eexists; split; [done|]; done].
  destruct (default (http_DefaultClient env) (client c) req) as [resp|err].
  - destruct (400 <=? StatusCode resp)%Z; [|destruct dst];
      (do 2 eexists; split; [done|]; split; [done|]; simpl;
       by rewrite requests_app).
  - do 2 eexists. split; [done|]. split; [done|]. simpl. by rewrite requests_app.
Qed.

Lemma doRequest_calls_only {T} env (dec : Decoder T) c ctx method path body dst :
  method ≠ "" →
  calls_only (doRequest env dec c ctx method path body dst) c method path.
Proof.
  intros Hm w.
  destruct (doRequest_requests env dec c ctx method path body dst w)
    as (r & w' & Hrun & _ & Hreq).
  exists r, w'. split; [done|].
  destruct (newRequest _ _ _ _ _ _ _) as [req|err] eqn:Hnew.
  - right. exists req. split; [done|].
    apply newRequest_inl in Hnew as (_ & Hmeth & Hurl & _).
    rewrite Hmeth, Hurl. by case_decide.
  - left. destruct Hreq as [_ ->]. done.
Qed.

(** The request a call handed over is the one [newRequest] built. *)
Lemma doRequest_sent {T} env (dec : Decoder T) c ctx method path body dst w r w' req :
  doRequest env dec c ctx method path body dst w = Ok r w' →
  requests (log w') = (requests (log w) ++ [req])%list →
  newRequest env c ctx method path body (heap w) = inl req.
Proof.
  intros Hrun Hlog.
  destruct (doRequest_requests env dec c ctx method path body dst w)
    as (r0 & w0 & Hrun0 & _ & Hreq).
  rewrite Hrun in Hrun0. injection Hrun0 as <- <-.
  destruct (newRequest _ _ _ _ _ _ _) as [req'|err].
  - rewrite Hlog in Hreq. apply app_inv_head in Hreq. by injection Hreq as ->.
  - destruct Hreq as [_ Hsame]. rewrite Hsame in Hlog.
    apply (f_equal length) in Hlog. rewrite length_app in Hlog. simpl in Hlog. lia.
Qed.

(** C5. Once the client has answered with a response, [doRequest] succeeds
    on a status code below 400: with no destination it returns no error and
    decodes nothing, with a destination it decodes the body into it and
    returns the decoder's error, if any.  On a status code of 400 or more it
    returns the error made of the status text, a colon and what was read of
    the body, whether or not reading the body failed. *)
Theorem doRequest_status {T} env (dec : Decoder T) c ctx method path body dst w
    req resp :
  newRequest env c ctx method path body (heap w) = inl req →
  default (http_DefaultClient env) (client c) req = inl resp →
  ∃ err dst' w',
    doRequest env dec c ctx method path body dst w = Ok (err, dst') w' ∧
    ((StatusCode resp < 400)%Z →
     match dst with
     | None => err = None ∧ dst' = None
     | Some d =>
         err = (dec (resp_Body resp) d).1.2 ∧
         dst' = Some (dec (resp_Body resp) d).1.1
     end) ∧
    ((400 ≤ StatusCode resp)%Z →
     err = Some (Status resp +:+ ": " +:+ body_data (resp_Body resp)) ∧
     dst' = dst).
Proof.
  intros Hnew Hdo. rewrite doRequest_run, Hnew, Hdo.
  destruct (400 <=? StatusCode resp)%Z eqn:Hcode.
  - apply Z.leb_le in Hcode. do 3 eexists. split; [done|]. split; [lia|done].
  - apply Z.leb_gt in Hcode. destruct dst as [d|].
    + do 3 eexists. split; [done|]. split; [done|lia].
    + do 3 eexists. split; [done|]. split; [done|lia].
Qed.

(** A 400 whose body reader fails after the data: the error still carries
    the status and the body. *)
Lemma doRequest_status_witness :
  let c := WithHTTPClient Demo.cl (Some Demo.always_bad) in
  ∃ w',
    doRequest Demo.env Demo.accept c Demo.ctx "POST" "/events/send"
      ANil (Some tt) (Demo.world ∅) =
    Ok (Some "400 Bad Request: bad request", Some tt) w'.
Proof.
  intros c.
  edestruct (doRequest_status Demo.env (Demo.accept : Decoder unit) c
               Demo.ctx "POST" "/events/send" ANil (Some tt) (Demo.world ∅))
    as (err & dst' & w' & Hrun & _ & Hbad).
  - vm_compute. reflexivity.
  - vm_compute. reflexivity.
  - destruct Hbad as [-> ->]; [vm_compute; discriminate|].
    exists w'. exact Hrun.
Defined.

(** C6, as the claim states it, fails: on a successful response and with no
    destination, [doRequest] closes the body without reading any of it. *)
Lemma doRequest_body_not_drained :
  ∃ req w',
    doRequest Demo.env (Demo.accept : Decoder unit) Demo.cl Demo.ctx
      "GET" "/ping" ANil None (Demo.world ∅) = Ok (None, None) w' ∧
    Demo.always_ok req =
      inl {| StatusCode := 200; Status := "200 OK"; resp_Body := Demo.ok_body |} ∧
    log w' = [EvDo req; EvClose] ∧
    ¬ drained Demo.ok_body (log w').
Proof.
  do 2 eexists. split; [vm_compute; reflexivity|]. split; [reflexivity|].
  split; [reflexivity|]. unfold drained. simpl. lia.
Qed.

(** C6, amended.  On every call of [doRequest] that obtains a response,
    exactly one request is handed to the client and the body is closed at
    the end, whatever the outcome.  The body is read to its end when the
    status code is 400 or more; below 400 it is read as far as the decoder
    consumes it when there is a destination, and not at all when there is
    none. *)
Theorem doRequest_body_closed {T} env (dec : Decoder T) c ctx method path body dst w
    req resp :
  newRequest env c ctx method path body (heap w) = inl req →
  default (http_DefaultClient env) (client c) req = inl resp →
  ∃ r w' reads,
    doRequest env dec c ctx method path body dst w = Ok r w' ∧
    log w' = (log w ++ EvDo req :: reads ++ [EvClose])%list ∧
    requests (log w') = (requests (log w) ++ [req])%list ∧
    ((400 ≤ StatusCode resp)%Z →
     reads = [EvRead (String.length (body_data (resp_Body resp)))] ∧
     drained (resp_Body resp) reads) ∧
    ((StatusCode resp < 400)%Z →
     match dst with
     | None => reads = []
     | Some d => reads = [EvRead (dec (resp_Body resp) d).2]
     end).
Proof.
  intros Hnew Hdo. rewrite doRequest_run, Hnew, Hdo.
  destruct (400 <=? StatusCode resp)%Z eqn:Hcode.
  - apply Z.leb_le in Hcode.
    exists (Some (Status resp +:+ ": " +:+ body_data (resp_Body resp)), dst).
    eexists. exists [EvRead (String.length (body_data (resp_Body resp)))].
    split; [done|]. split; [done|]. simpl. split; [by rewrite requests_app|].
    split; [|lia]. intros _. split; [done|]. unfold drained. simpl. lia.
  - apply Z.leb_gt in Hcode. destruct dst as [d|].
    + do 2 eexists. exists [EvRead (dec (resp_Body resp) d).2].
      split; [done|]. split; [done|]. simpl. split; [by rewrite requests_app|].
      split; [lia|done].
    + do 2 eexists. exists [].
      split; [done|]. split; [done|]. simpl. split; [by rewrite requests_app|].
      split; [lia|done].
Qed.

(** A 400: one request, the body read to its end, then closed. *)
Lemma doRequest_body_closed_witness :
  let c := WithHTTPClient Demo.cl (Some Demo.always_bad) in
  ∃ r w' req,
    doRequest Demo.env (Demo.accept : Decoder unit) c Demo.ctx
      "POST" "/events/send" ANil (Some tt) (Demo.world ∅) = Ok r w' ∧
    log w' = [EvDo req; EvRead 11; EvClose].
Proof.
  intros c.
  edestruct (doRequest_body_closed Demo.env (Demo.accept : Decoder unit) c
               Demo.ctx "POST" "/events/send" ANil (Some tt) (Demo.world ∅))
    as (r & w' & reads & Hrun & Hlog & _ & Hbad & _).
  - vm_compute. reflexivity.
  - vm_compute. reflexivity.
  - destruct Hbad as [-> _]; [vm_compute; discriminate|].
    exists r, w'. eexists. split; [exact Hrun|exact Hlog].
Defined.

(** C8. The request [doRequest] hands to the client has the header
    Content-Type: application/json exactly when the body argument is not
    nil, and the header Authorization: Bearer <key> exactly when the API key
    is not the empty string. *)
Theorem doRequest_headers {T} env (dec : Decoder T) c ctx method path body dst w
    r w' req :
  doRequest env dec c ctx method path body dst w = Ok r w' →
  requests (log w') = (requests (log w) ++ [req])%list →
  req_Header req !! "Content-Type" =
    (if is_nil body then None else Some "application/json") ∧
  req_Header req !! "Authorization" =
    (if decide (apiKey c = "") then None else Some ("Bearer " +:+ apiKey c)).
Proof.
  intros Hrun Hlog.
  pose proof (doRequest_sent _ _ _ _ _ _ _ _ _ _ _ _ Hrun Hlog) as Hnew.
  apply newRequest_inl in Hnew as (_ & _ & _ & _ & Hct & Hauth). done.
Qed.

(** A request without a body from a client without a key has neither
    header. *)
Lemma doRequest_headers_witness :
  let c := {| apiKey := ""; endpoint := DefaultEndpoint;
              client := Some Demo.always_ok |} in
  ∃ r w' req,
    doRequest Demo.env (Demo.accept : Decoder unit) c Demo.ctx
      "GET" "/ping" ANil None (Demo.world ∅) = Ok r w' ∧
    requests (log w') = [req] ∧
    req_Header req !! "Content-Type" = None ∧
    req_Header req !! "Authorization" = None.
Proof.
  intros c.
  assert (∃ r w' req,
    doRequest Demo.env (Demo.accept : Decoder unit) c Demo.ctx
      "GET" "/ping" ANil None (Demo.world ∅) = Ok r w' ∧
    requests (log w') = (requests (log (Demo.world ∅)) ++ [req])%list)
    as (r & w' & req & Hrun & Hlog)
    by (do 3 eexists; split; vm_compute; reflexivity).
  exists r, w', req. split; [exact Hrun|]. split; [exact Hlog|].
  exact (doRequest_headers Demo.env (Demo.accept : Decoder unit) c
           Demo.ctx "GET" "/ping" ANil None (Demo.world ∅) r w' req Hrun Hlog).
Defined.

(** ** The operations *)

Lemma calls_only_ret {A} (a : A) c method path :
  calls_only (mret a) c method path.
Proof. intros w. exists a, w. split; [done|by left]. Qed.

(** A silent step before an operation changes nothing to its calls. *)
Lemma calls_only_after {A B} (pre : M A) (f : A → M B) c method path :
  (∀ w, ∃ a w1, pre w = Ok a w1 ∧ log w1 = log w ∧
                calls_only (f a) c method path) →
  calls_only (pre ≫= f) c method path.
Proof.
  intros Hpre w. destruct (Hpre w) as (a & w1 & Hrun & Hlog & Hf).
  destruct (Hf w1) as (r & w' & Hrun' & Hcalls).
  exists r, w'. rewrite (bind_Ok _ _ _ _ _ Hrun). split; [done|].
  by rewrite <- Hlog.
Qed.

(** So does a pure step after it. *)
Lemma calls_only_then {A B} (op : M A) (f : A → M B) c method path :
  calls_only op c method path →
  (∀ a w, ∃ b, f a w = Ok b w) →
  calls_only (op ≫= f) c method path.
Proof.
  intros Hop Hf w. destruct (Hop w) as (a & w1 & Hrun & Hcalls).
  destruct (Hf a w1) as (b & Hb).
  exists b, w1. rewrite (bind_Ok _ _ _ _ _ Hrun). by split.
Qed.

(** How every operation ends: an error gives no response. *)
Lemma result_returns {R} (x : option error * option R) w :
  ∃ b : option R * option error,
    (let '(err, resp) := x in
     match err with
     | Some err => mret (None, Some err)
     | None => mret (resp, None)
     end : M _) w = Ok b w.
Proof. destruct x as [[err|] resp]; by eexists. Qed.

Section contact_operations.
Variable allowed : any → bool.
Variables (env : Env) (c : Client) (ctx : Context).

(** The shape [CreateContact] and [UpsertContact] share in both files. *)
Lemma contact_calls_only {R} (dec : Decoder R) (resp0 : R) method path email fields :
  method ≠ "" →
  calls_only
    ('(req, err) ← validateFields_with allowed env fields;
     match err with
     | Some err => mret (None, Some err)
     | None =>
         map_store req "email" (AString email);;
         '(err, resp) ← doRequest env dec c ctx method path (AMap req) (Some resp0);
         match err with
         | Some err => mret (None, Some err)
         | None => mret (resp, None)
         end
     end) c method path.
Proof.
  intros Hm. apply calls_only_after. intros w.
  rewrite validateFields_with_run.
  destruct (first_invalid _ _) as [[k v]|].
  - do 2 eexists. split; [done|]. split; [done|]. apply calls_only_ret.
  - do 2 eexists. split; [done|]. split; [done|].
    apply calls_only_after. intros w1. do 2 eexists. split; [done|].
    split; [done|]. apply calls_only_then.
    + by apply doRequest_calls_only.
    + intros x w2. apply result_returns.
Qed.

(** The shape of [DeleteContact] in both files: the body is the map with
    the one key [email]. *)
Lemma delete_calls_only method email :
  method ≠ "" →
  calls_only
    (req ← map_make;
     map_store (Some req) "email" (AString email);;
     '(err, resp) ← doRequest env (decode_DeleteContactResponse env) c ctx
                      method "/contacts/delete" (AMap (Some req))
                      (Some {| dc_Success := false; dc_Message := "" |});
     match err with
     | Some err => mret (None, Some err)
     | None => mret (resp, None)
     end) c method "/contacts/delete".
Proof.
  intros Hm. apply calls_only_after. intros w.
  do 2 eexists. split; [done|]. split; [done|].
  apply calls_only_after. intros w1. do 2 eexists. split; [done|].
  split; [done|]. apply calls_only_then.
  - by apply doRequest_calls_only.
  - intros x w2. apply result_returns.
Qed.

End contact_operations.

(** Running with a nil client is running with the default client. *)
Lemma doRequest_nil_client {T} env (dec : Decoder T) c ctx method path body dst w :
  doRequest env dec (WithHTTPClient c None) ctx method path body dst w =
  doRequest env dec (WithHTTPClient c (Some (http_DefaultClient env)))
    ctx method path body dst w.
Proof. by rewrite !doRequest_run. Qed.

Lemma bind_ext {A B} (m : M A) (f g : A → M B) w :
  (∀ a w', f a w' = g a w') → (m ≫= f) w = (m ≫= g) w.
Proof. intros H. unfold mbind, M_bind. by destruct (m w). Qed.

Lemma bind_cong {A B} (m m' : M A) (f : A → M B) w :
  m w = m' w → (m ≫= f) w = (m' ≫= f) w.
Proof. intros H. unfold mbind, M_bind. by rewrite H. Qed.

Section each_operation.
Variables (env : Env) (c : Client) (ctx : Context).

Lemma Loops_CreateContact_calls email fields :
  calls_only (Loops.CreateContact env c ctx email fields) c
    "POST" "/contacts/create".
Proof. by apply (contact_calls_only Loops.allowed). Qed.

Lemma Loops_UpsertContact_calls email fields :
  calls_only (Loops.UpsertContact env c ctx email fields) c
    "PUT" "/contacts/update".
Proof. by apply (contact_calls_only Loops.allowed). Qed.

Lemma Loops_DeleteContact_calls email :
  calls_only (Loops.DeleteContact env c ctx email) c "POST" "/contacts/delete".
Proof. by apply delete_calls_only. Qed.

Lemma Loops_SendEvent_calls req :
  calls_only (Loops.SendEvent env c ctx req) c "POST" "/events/send".
Proof.
  apply calls_only_then; [by apply doRequest_calls_only|].
  intros x w. apply result_returns.
Qed.

Lemma Loops_SendTransactional_calls req :
  calls_only (Loops.SendTransactional env c ctx req) c "POST" "/transactional".
Proof.
  apply calls_only_then; [by apply doRequest_calls_only|].
  intros x w. apply result_returns.
Qed.

Lemma Older_CreateContact_calls email fields :
  calls_only (Older.CreateContact env c ctx email fields) c
    "POST" "/contacts/create".
Proof. by apply (contact_calls_only Older.allowed). Qed.

Lemma Older_UpsertContact_calls email fields :
  calls_only (Older.UpsertContact env c ctx email fields) c
    "PUT" "/contacts/update".
Proof. by apply (contact_calls_only Older.allowed). Qed.

Lemma Older_DeleteContact_calls email :
  calls_only (Older.DeleteContact env c ctx email) c "DELETE" "/contacts/delete".
Proof. by apply delete_calls_only. Qed.

Lemma Older_SendEvent_calls req :
  calls_only (Older.SendEvent env c ctx req) c "POST" "/events/send".
Proof.
  apply calls_only_then; [by apply doRequest_calls_only|].
  intros x w. apply result_returns.
Qed.
End each_operation.


(** The operations do reach the transport: creating a contact through the
    example client posts to the default endpoint. *)
Lemma CreateContact_example :
  ∃ req w',
    Loops.CreateContact Demo.env Demo.cl Demo.ctx "a@b.c" None
      (Demo.world ∅) =
    Ok (Some {| cc_Success := false; cc_ID := "" |}, None) w' ∧
    requests (log w') = [req] ∧
    req_Method req = "POST" ∧
    req_URL req = "https://app.loops.so/api/v1/contacts/create".
Proof.
  do 2 eexists. split; [vm_compute; reflexivity|].
  split; [reflexivity|]. split; reflexivity.
Qed.

(** C10. A client whose transport is nil (as after [WithHTTPClient(nil)])
    behaves in [doRequest] as the same client with the default transport: no
    call panics, and a request that could be built is handed to the default
    client.  So every operation of both files returns on such a client, with
    the result it has with the default client. *)
Theorem nil_client_uses_default env c ctx :
  let c0 := WithHTTPClient c None in
  let c1 := WithHTTPClient c (Some (http_DefaultClient env)) in
  (∀ T (dec : Decoder T) method path body dst w,
     doRequest env dec c0 ctx method path body dst w =
       doRequest env dec c1 ctx method path body dst w ∧
     ∃ r w', doRequest env dec c0 ctx method path body dst w = Ok r w' ∧
       ∀ req, newRequest env c0 ctx method path body (heap w) = inl req →
         requests (log w') = (requests (log w) ++ [req])%list) ∧
  (∀ email fields w,
     (Loops.CreateContact env c0 ctx email fields w =
        Loops.CreateContact env c1 ctx email fields w ∧
      ∃ r w', Loops.CreateContact env c0 ctx email fields w = Ok r w') ∧
     (Loops.UpsertContact env c0 ctx email fields w =
        Loops.UpsertContact env c1 ctx email fields w ∧
      ∃ r w', Loops.UpsertContact env c0 ctx email fields w = Ok r w') ∧
     (Older.CreateContact env c0 ctx email fields w =
        Older.CreateContact env c1 ctx email fields w ∧
      ∃ r w', Older.CreateContact env c0 ctx email fields w = Ok r w') ∧
     (Older.UpsertContact env c0 ctx email fields w =
        Older.UpsertContact env c1 ctx email fields w ∧
      ∃ r w', Older.UpsertContact env c0 ctx email fields w = Ok r w')) ∧
  (∀ email w,
     (Loops.DeleteContact env c0 ctx email w = Loops.DeleteContact env c1 ctx email w ∧
      ∃ r w', Loops.DeleteContact env c0 ctx email w = Ok r w') ∧
     (Older.DeleteContact env c0 ctx email w = Older.DeleteContact env c1 ctx email w ∧
      ∃ r w', Older.DeleteContact env c0 ctx email w = Ok r w')) ∧
  (∀ ev tx w,
     (Loops.SendEvent env c0 ctx ev w = Loops.SendEvent env c1 ctx ev w ∧
      ∃ r w', Loops.SendEvent env c0 ctx ev w = Ok r w') ∧
     (Older.SendEvent env c0 ctx ev w = Older.SendEvent env c1 ctx ev w ∧
      ∃ r w', Older.SendEvent env c0 ctx ev w = Ok r w') ∧
     (Loops.SendTransactional env c0 ctx tx w =
        Loops.SendTransactional env c1 ctx tx w ∧
      ∃ r w', Loops.SendTransactional env c0 ctx tx w = Ok r w')).
Proof.
  intros c0 c1.
  assert (∀ A (op : M A) method path w,
            calls_only op c0 method path → ∃ r w', op w = Ok r w') as Hret.
  { intros A op method path w Hop. destruct (Hop w) as (r & w' & Hrun & _). eauto. }
  split; [|split; [|split]].
  - intros T dec method path body dst w. split; [apply doRequest_nil_client|].
    destruct (doRequest_requests env dec c0 ctx method path body dst w)
      as (r & w' & Hrun & _ & Hreq).
    exists r, w'. split; [done|]. intros req Hnew. by rewrite Hnew in Hreq.
  - intros email fields w. repeat split;
      try (apply bind_ext; intros [req [err|]] w1; [done|];
           apply bind_ext; intros [] w2; apply bind_cong, doRequest_nil_client).
    + eapply Hret, Loops_CreateContact_calls.
    + eapply Hret, Loops_UpsertContact_calls.
    + eapply Hret, Older_CreateContact_calls.
    + eapply Hret, Older_UpsertContact_calls.
  - intros email w. repeat split;
      try (apply bind_ext; intros req w1;
           apply bind_ext; intros [] w2; apply bind_cong, doRequest_nil_client).
    + eapply Hret, Loops_DeleteContact_calls.
    + eapply Hret, Older_DeleteContact_calls.
  - intros ev tx w. repeat split; try (apply bind_cong, doRequest_nil_client).
    + eapply Hret, Loops_SendEvent_calls.
    + eapply Hret, Older_SendEvent_calls.
    + eapply Hret, Loops_SendTransactional_calls.
Qed.

(** The nil client of the example: the request goes to the default client. *)
Lemma nil_client_uses_default_witness :
  ∃ req w',
    doRequest Demo.env (Demo.accept : Decoder unit)
      (WithHTTPClient Demo.cl None) Demo.ctx "GET" "/ping" ANil None
      (Demo.world ∅) = Ok (None, None) w' ∧
    requests (log w') = [req].
Proof.
  destruct (nil_client_uses_default Demo.env Demo.cl Demo.ctx) as [Hdo _].
  destruct (Hdo unit Demo.accept "GET" "/ping" ANil None (Demo.world ∅))
    as (_ & r & w' & Hrun & Hsent).
  eexists. exists w'. split.
  - rewrite Hrun. f_equal.
    assert (match doRequest Demo.env (Demo.accept : Decoder unit)
                    (WithHTTPClient Demo.cl None) Demo.ctx "GET" "/ping"
                    ANil None (Demo.world ∅)
            with Ok r _ => r | Panic _ => (None, None) end = (None, None)) as Hr
      by (vm_compute; reflexivity).
    by rewrite Hrun in Hr.
  - apply Hsent. vm_compute. reflexivity.
Defined.

(** ** The endpoint *)

Lemma length_append s t :
  String.length (s +:+ t) = String.length s + String.length t.
Proof. induction s as [|a s IH]; simpl; [done|by rewrite IH]. Qed.

Lemma substring_all s : String.substring 0 (String.length s) s = s.
Proof. induction s as [|a s IH]; simpl; [done|by rewrite IH]. Qed.

Lemma substring_prefix s t :
  String.substring 0 (String.length s) (s +:+ t) = s.
Proof.
  induction s as [|a s IH]; simpl.
  - by destruct t.
  - by rewrite IH.
Qed.

Lemma substring_suffix s t :
  String.substring (String.length s) (String.length t) (s +:+ t) = t.
Proof. induction s as [|a s IH]; simpl; [apply substring_all|done]. Qed.

Lemma substring_split s n :
  (n ≤ String.length s)%nat →
  String.substring 0 n s +:+ String.substring n (String.length s - n) s = s.
Proof.
  revert n. induction s as [|a s IH]; intros n Hn; simpl in *.
  - by destruct n.
  - destruct n as [|n]; simpl.
    + by rewrite substring_all.
    + transitivity
        (String a (String.substring 0 n s +:+
                   String.substring n (String.length s - n) s));
        [reflexivity|]. f_equal. apply IH. lia.
Qed.

Lemma TrimSuffix_app s t : TrimSuffix (s +:+ t) t = s.
Proof.
  unfold TrimSuffix, HasSuffix. rewrite length_append.
  replace (String.length s + String.length t - String.length t)
    with (String.length s) by lia.
  rewrite substring_suffix, String.eqb_refl, substring_prefix.
  by destruct (_ <=? _)%nat eqn:Hle; [|apply Nat.leb_gt in Hle; lia].
Qed.

Lemma HasSuffix_true e t : HasSuffix e t = true → ∃ s, e = s +:+ t.
Proof.
  unfold HasSuffix. intros [Hle Heq]%andb_prop.
  apply Nat.leb_le in Hle. apply String.eqb_eq in Heq.
  exists (String.substring 0 (String.length e - String.length t) e).
  set (n := String.length e - String.length t) in *.
  assert (String.length t = String.length e - n) as Hlen by lia.
  symmetry. etransitivity; [|apply (substring_split e n); lia].
  f_equal. rewrite <- Hlen. symmetry. exact Heq.
Qed.

(** C9. [WithEndpoint] stores the endpoint without its trailing slash: one
    final "/" is removed when there is one, and an endpoint that does not
    end in a slash is stored as it is.  So "https://x.example/api/" is
    stored as "https://x.example/api", and this is what request paths are
    appended to.  The key and the transport are kept. *)
Theorem WithEndpoint_trims c :
  (∀ s, endpoint (WithEndpoint c (s +:+ "/")) = s) ∧
  (∀ e, (∀ s, e ≠ s +:+ "/") → endpoint (WithEndpoint c e) = e) ∧
  endpoint (WithEndpoint c "https://x.example/api/") = "https://x.example/api" ∧
  (∀ env ctx method path body h req,
     newRequest env (WithEndpoint c "https://x.example/api/") ctx method path body h =
       inl req →
     req_URL req = "https://x.example/api" +:+ path) ∧
  (∀ e, apiKey (WithEndpoint c e) = apiKey c ∧
        client (WithEndpoint c e) = client c).
Proof.
  split; [|split; [|split; [|split]]].
  - intros s. apply TrimSuffix_app.
  - intros e Hno. simpl. unfold TrimSuffix.
    destruct (HasSuffix e "/") eqn:Hsuf; [|done].
    apply HasSuffix_true in Hsuf as [s ->]. by destruct (Hno s).
  - reflexivity.
  - intros env ctx method path body h req Hnew.
    by apply newRequest_inl in Hnew as (_ & _ & -> & _).
  - done.
Qed.

(** A request built after [WithEndpoint] with a trailing slash. *)
Lemma WithEndpoint_trims_witness :
  ∃ req,
    newRequest Demo.env (WithEndpoint Demo.cl "https://x.example/api/")
      Demo.ctx "POST" "/contacts/create" ANil ∅ = inl req ∧
    req_URL req = "https://x.example/api/contacts/create".
Proof.
  eexists. split; [vm_compute; reflexivity|].
  destruct (WithEndpoint_trims Demo.cl) as (_ & _ & _ & Hurl & _).
  eapply (Hurl Demo.env Demo.ctx "POST" "/contacts/create" ANil ∅).
  vm_compute. reflexivity.
Defined.

(** Only one slash goes: an endpoint ending in two keeps one. *)
Lemma WithEndpoint_one_slash c :
  endpoint (WithEndpoint c "https://x.example/api//") = "https://x.example/api/".
Proof. reflexivity. Qed.

(** * Further properties of the code *)

(** ** The dispatcher: failures and what it leaves alone *)

(** X1. When the body cannot be marshalled, or the request cannot be
    constructed, [doRequest] returns that very error, hands nothing to the
    client and leaves the world and the destination as they were. *)
Theorem doRequest_fails_before_network {T} env (dec : Decoder T) c ctx method path
    body dst w err :
  (is_nil body = false ∧ json_Marshal env (payload (heap w) body) = inr err) ∨
  ((is_nil body = true ∨ ∃ bytes, json_Marshal env (payload (heap w) body) = inl bytes) ∧
   http_NewRequest_err env ctx method (endpoint c +:+ path) = Some err) →
  doRequest env dec c ctx method path body dst w = Ok (Some err, dst) w.
Proof.
  intros Hfail. rewrite doRequest_run.
  assert (newRequest env c ctx method path body (heap w) = inr err) as ->; [|done].
  unfold newRequest, http_NewRequestWithContext.
  destruct Hfail as [[-> ->]|[[->|[bytes Hm]] Herr]]; [done|by rewrite Herr|].
  destruct (is_nil body); rewrite ?Hm, Herr; done.
Qed.

(** A marshaller that fails, and a URL that does not parse. *)
Lemma doRequest_fails_before_network_witness :
  let ev := AEvent {| ev_Email := "a@b.c"; ev_EventName := "signup" |} in
  doRequest Demo.env_no_marshal (Demo.accept : Decoder unit) Demo.cl Demo.ctx
    "POST" "/events/send" ev (Some tt) (Demo.world ∅) =
    Ok (Some "json: unsupported value", Some tt) (Demo.world ∅) ∧
  doRequest Demo.env_bad_url (Demo.accept : Decoder unit) Demo.cl Demo.ctx
    "POST" "/events/send" ev (Some tt) (Demo.world ∅) =
    Ok (Some "parse: invalid URL", Some tt) (Demo.world ∅).
Proof.
  intros ev. split.
  - apply doRequest_fails_before_network. left. split; reflexivity.
  - apply doRequest_fails_before_network. right. split; [|reflexivity].
    right. exists "{}". reflexivity.
Defined.

(** X2. When the client answers with an error instead of a response,
    [doRequest] returns that error as it is: one request was handed over,
    nothing is read or closed, and the destination is as it was. *)
Theorem doRequest_transport_error {T} env (dec : Decoder T) c ctx method path
    body dst w req err :
  newRequest env c ctx method path body (heap w) = inl req →
  default (http_DefaultClient env) (client c) req = inr err →
  doRequest env dec c ctx method path body dst w =
    Ok (Some err, dst) {| heap := heap w; log := log w ++ [EvDo req] |}.
Proof. intros Hnew Hdo. by rewrite doRequest_run, Hnew, Hdo. Qed.

(** A transport that cannot connect. *)
Lemma doRequest_transport_error_witness :
  let c := WithHTTPClient Demo.cl (Some Demo.unreachable) in
  ∃ req,
    doRequest Demo.env (Demo.accept : Decoder unit) c Demo.ctx
      "GET" "/ping" ANil (Some tt) (Demo.world ∅) =
    Ok (Some "dial tcp: connection refused", Some tt)
       {| heap := heap (Demo.world ∅); log := [EvDo req] |}.
Proof.
  intros c. eexists.
  apply (doRequest_transport_error Demo.env (Demo.accept : Decoder unit) c Demo.ctx
           "GET" "/ping" ANil (Some tt) (Demo.world ∅)).
  - vm_compute. reflexivity.
  - reflexivity.
Defined.

(** X3. [doRequest] never changes a map, and it changes the destination
    only by decoding into it the body of a response with a status code below
    400; on every other path the destination is as it was. *)
Theorem doRequest_frame {T} env (dec : Decoder T) c ctx method path body dst :
  always (doRequest env dec c ctx method path body dst)
    (λ w r w',
       heap w' = heap w ∧
       (r.2 = dst ∨
        ∃ req resp d,
          newRequest env c ctx method path body (heap w) = inl req ∧
          default (http_DefaultClient env) (client c) req = inl resp ∧
          (StatusCode resp < 400)%Z ∧ dst = Some d ∧
          r = ((dec (resp_Body resp) d).1.2, Some (dec (resp_Body resp) d).1.1))).
Proof.
  intros w. rewrite doRequest_run.
  destruct (newRequest _ _ _ _ _ _ _) as [req|err] eqn:Hnew;
    [|do 2 eexists; split; [done|]; split; [done|by left]].
  destruct (default (http_DefaultClient env) (client c) req) as [resp|err] eqn:Hdo;
    [|do 2 eexists; split; [done|]; split; [done|by left]].
  destruct (400 <=? StatusCode resp)%Z eqn:Hcode;
    [do 2 eexists; split; [done|]; split; [done|by left]|].
  apply Z.leb_gt in Hcode. destruct dst as [d|].
  - do 2 eexists. split; [done|]. split; [done|]. right.
    exists req, resp, d. done.
  - do 2 eexists. split; [done|]. split; [done|by left].
Qed.

Lemma newRequest_header_keys env c ctx method path body h req k :
  newRequest env c ctx method path body h = inl req →
  is_Some (req_Header req !! k) → k = "Content-Type" ∨ k = "Authorization".
Proof.
  unfold newRequest, http_NewRequestWithContext.
  destruct (if is_nil body then _ else _) as [[bytes|]|err]; [| |done];
    (destruct (http_NewRequest_err _ _ _ _); [done|]);
    case_decide; intros [= <-]; simpl; intros [v Hv];
    repeat (apply lookup_insert_Some in Hv as [[<- _]|[_ Hv]]; [by eauto|]);
    by rewrite lookup_empty in Hv.
Qed.

(** X4. The request [doRequest] hands to the client carries the caller's
    context, the URL made of the configured endpoint and the path, and as
    body the marshalled body argument (none for a nil argument); it has no
    header other than Content-Type and Authorization. *)
Theorem doRequest_request_contents {T} env (dec : Decoder T) c ctx method path
    body dst w r w' req :
  doRequest env dec c ctx method path body dst w = Ok r w' →
  requests (log w') = (requests (log w) ++ [req])%list →
  req_ctx req = ctx ∧
  req_URL req = endpoint c +:+ path ∧
  (if is_nil body then req_Body req = None
   else ∃ bytes, json_Marshal env (payload (heap w) body) = inl bytes ∧
                 req_Body req = Some bytes) ∧
  (∀ k, is_Some (req_Header req !! k) → k = "Content-Type" ∨ k = "Authorization").
Proof.
  intros Hrun Hlog.
  pose proof (doRequest_sent _ _ _ _ _ _ _ _ _ _ _ _ Hrun Hlog) as Hnew.
  pose proof (newRequest_inl _ _ _ _ _ _ _ _ Hnew) as (Hctx & _ & Hurl & Hbody & _).
  split; [done|]. split; [done|]. split; [done|].
  intros k. by apply newRequest_header_keys with (1 := Hnew).
Qed.

(** An event sent through the example client. *)
Lemma doRequest_request_contents_witness :
  let ev := AEvent {| ev_Email := "a@b.c"; ev_EventName := "signup" |} in
  ∃ r w' req,
    doRequest Demo.env (Demo.accept : Decoder unit) Demo.cl Demo.ctx
      "POST" "/events/send" ev (Some tt) (Demo.world ∅) = Ok r w' ∧
    req_URL req = "https://app.loops.so/api/v1/events/send" ∧
    req_Body req = Some "{}".
Proof.
  intros ev.
  assert (∃ r w' req,
    doRequest Demo.env (Demo.accept : Decoder unit) Demo.cl Demo.ctx
      "POST" "/events/send" ev (Some tt) (Demo.world ∅) = Ok r w' ∧
    requests (log w') = (requests (log (Demo.world ∅)) ++ [req])%list)
    as (r & w' & req & Hrun & Hlog)
    by (do 3 eexists; split; vm_compute; reflexivity).
  destruct (doRequest_request_contents Demo.env (Demo.accept : Decoder unit) Demo.cl
              Demo.ctx "POST" "/events/send" ev (Some tt) (Demo.world ∅) r w' req
              Hrun Hlog) as (_ & Hurl & Hbody & _).
  exists r, w', req. split; [exact Hrun|]. split; [exact Hurl|].
  destruct Hbody as (bytes & Hm & ->). injection Hm as <-. reflexivity.
Defined.

(** ** The validator: what does not depend on the order, and what does *)

Lemma range_ok_rev : range_ok Demo.env_rev.
Proof. intros m. apply reverse_Permutation. Defined.

Section validate_more.
Variable allowed : any → bool.

Lemma validateFields_with_kept env fields :
  always (validateFields_with allowed env fields)
    (λ w _ w', log w' = log w ∧ maps_kept w w').
Proof.
  intros w. rewrite validateFields_with_run. do 2 eexists.
  split; [done|]. split; [done|]. intros l Hl. simpl.
  rewrite lookup_insert_ne; [done|].
  intros <-. by apply (is_fresh (dom (heap w))).
Qed.

(** Entries before the first offending one do not matter. *)
Lemma first_invalid_app pre k v post :
  (∀ k' v', (k', v') ∈ pre → k' = "email" ∨ allowed v' = true) →
  k ≠ "email" → allowed v = false →
  first_invalid allowed (pre ++ (k, v) :: post) = Some (k, v).
Proof.
  intros Hpre Hk Hv. induction pre as [|[k' v'] pre IH]; simpl.
  - case_decide; [done|]. by rewrite Hv.
  - assert (first_invalid allowed (pre ++ (k, v) :: post) = Some (k, v)) as Hrest.
    { apply IH. intros k0 v0 Hin. apply Hpre. by right. }
    case_decide; [done|].
    destruct (Hpre k' v') as [?| ->]; [by left|done|done].
Qed.

(** Whether the loop runs to its end does not depend on the order. *)
Lemma first_invalid_order env1 env2 (m : gmap string any) :
  range_ok env1 → range_ok env2 →
  first_invalid allowed (range_order env1 m) = None →
  first_invalid allowed (range_order env2 m) = None.
Proof.
  intros H1 H2. rewrite !first_invalid_None. intros Hall k v Hin.
  apply Hall. apply (elem_of_range env1 H1). by apply (elem_of_range env2 H2).
Qed.

Lemma validateFields_with_order env1 env2 fields w :
  range_ok env1 → range_ok env2 →
  (∀ l w', validateFields_with allowed env1 fields w = Ok (Some l, None) w' →
           validateFields_with allowed env2 fields w = Ok (Some l, None) w') ∧
  (∀ err w', validateFields_with allowed env1 fields w = Ok (None, Some err) w' →
     ∃ err' w'', validateFields_with allowed env2 fields w =
                   Ok (None, Some err') w'').
Proof.
  intros H1 H2. rewrite !validateFields_with_run. split.
  - intros l w'.
    destruct (first_invalid allowed (range_order env1 _)) as [[k v]|] eqn:Hfi1;
      [done|].
    pose proof (first_invalid_order env1 env2 _ H1 H2 Hfi1) as Hfi2.
    rewrite Hfi2.
    rewrite (copied_all allowed (entries (heap w) fields)) by done.
    by rewrite (copied_all allowed (entries (heap w) fields)) by done.
  - intros err w'.
    destruct (first_invalid allowed (range_order env1 _)) as [[k v]|] eqn:Hfi1;
      [|done]. intros _.
    destruct (first_invalid allowed (range_order env2 _)) as [[k' v']|] eqn:Hfi2;
      [by eauto|].
    by rewrite (first_invalid_order env2 env1 _ H2 H1 Hfi2) in Hfi1.
Qed.

(** A successful validation yields contents that validate again, to the
    same contents. *)
Lemma validateFields_with_again env fields w l w' :
  range_ok env →
  validateFields_with allowed env fields w = Ok (Some l, None) w' →
  ∃ l2 w2,
    validateFields_with allowed env (Some l) w' = Ok (Some l2, None) w2 ∧
    heap w2 !! l2 = heap w' !! l ∧
    heap w' !! l = Some (delete "email" (entries (heap w) fields)).
Proof.
  intros Hrange. rewrite validateFields_with_run.
  destruct (first_invalid _ _) as [[k v]|] eqn:Hfi; [done|].
  intros [= <- <-].
  rewrite (copied_all allowed (entries (heap w) fields)) by done.
  do 2 eexists. split; [|split].
  - apply validateFields_with_accept; [done|]. simpl.
    rewrite lookup_insert_eq. simpl. intros k v Hkv Hk.
    rewrite lookup_delete_ne in Hkv by done.
    rewrite first_invalid_None in Hfi. apply (Hfi k v); [|done].
    by apply elem_of_range.
  - simpl. rewrite !lookup_insert_eq. simpl. by rewrite delete_delete_eq.
  - simpl. by rewrite lookup_insert_eq.
Qed.
End validate_more.

(** What the older file accepts, [loops.go] accepts as well. *)
Lemma Older_allowed_Loops v : Older.allowed v = true → Loops.allowed v = true.
Proof. by destruct v. Qed.

Lemma first_invalid_Older_Loops kvs acc :
  first_invalid Older.allowed kvs = None →
  first_invalid Loops.allowed kvs = None ∧
  copied Loops.allowed acc kvs = copied Older.allowed acc kvs.
Proof.
  revert acc. induction kvs as [|[k v] rest IH]; intros acc; simpl; [done|].
  case_decide; [by apply IH|].
  destruct (Older.allowed v) eqn:Hv; [|done].
  rewrite (Older_allowed_Loops v Hv). by apply IH.
Qed.

(** X5. [validateFields] of both files performs no network effect and
    changes no map that existed before the call, whether it succeeds or
    fails: in particular it never changes its input. *)
Theorem validateFields_keeps_maps env ctx fields :
  always (Loops.validateFields env fields)
    (λ w _ w', log w' = log w ∧ maps_kept w w') ∧
  always (Older.validateFields env ctx fields)
    (λ w _ w', log w' = log w ∧ maps_kept w w').
Proof. split; apply validateFields_with_kept. Qed.

(** X6. In both files, whether [validateFields] succeeds does not depend on
    the order in which the map is ranged, and neither does the map it
    returns on success; only which offending entry the error names does. *)
Theorem validateFields_order_independent env1 env2 ctx fields w :
  range_ok env1 → range_ok env2 →
  ((∀ l w', Loops.validateFields env1 fields w = Ok (Some l, None) w' →
            Loops.validateFields env2 fields w = Ok (Some l, None) w') ∧
   (∀ err w', Loops.validateFields env1 fields w = Ok (None, Some err) w' →
      ∃ err' w'', Loops.validateFields env2 fields w = Ok (None, Some err') w'')) ∧
  ((∀ l w', Older.validateFields env1 ctx fields w = Ok (Some l, None) w' →
            Older.validateFields env2 ctx fields w = Ok (Some l, None) w') ∧
   (∀ err w', Older.validateFields env1 ctx fields w = Ok (None, Some err) w' →
      ∃ err' w'', Older.validateFields env2 ctx fields w = Ok (None, Some err') w'')).
Proof.
  intros H1 H2. split; by apply validateFields_with_order.
Qed.

(** Two offending entries: both orders fail, each naming the entry it meets
    first. *)
Lemma validateFields_order_independent_witness :
  let w := Demo.world {[ "score" := AFloat64 0; "name" := AString "Ada";
                         "tags" := ANil ]} in
  ∃ w1 err' w2,
    Loops.validateFields Demo.env (Some 1%positive) w =
      Ok (None, Some "invalid field type for score: float64") w1 ∧
    Loops.validateFields Demo.env_rev (Some 1%positive) w =
      Ok (None, Some err') w2 ∧
    err' = "invalid field type for tags: <nil>".
Proof.
  intros w.
  assert (∃ w1, Loops.validateFields Demo.env (Some 1%positive) w =
                  Ok (None, Some "invalid field type for score: float64") w1)
    as [w1 Hrun] by (eexists; vm_compute; reflexivity).
  destruct (validateFields_order_independent Demo.env Demo.env_rev Demo.ctx
              (Some 1%positive) w range_ok_example range_ok_rev)
    as [[_ Hfail] _].
  destruct (Hfail _ _ Hrun) as (err' & w2 & Hrun2).
  exists w1, err', w2. split; [exact Hrun|]. split; [exact Hrun2|].
  assert (∃ w3, Loops.validateFields Demo.env_rev (Some 1%positive) w =
                  Ok (None, Some "invalid field type for tags: <nil>") w3)
    as [w3 Hrev] by (eexists; vm_compute; reflexivity).
  rewrite Hrev in Hrun2. injection Hrun2 as <- _. reflexivity.
Defined.

(** X7. In both files the loop stops at the first entry, in the order the
    map is ranged, whose key is not [email] and whose type is not allowed:
    entries before it that pass (or are [email]) do not matter, entries
    after it are never looked at, and the error names that entry and its
    type. *)
Theorem validateFields_first_offender env ctx fields w pre k v post :
  range_order env (entries (heap w) fields) = (pre ++ (k, v) :: post)%list →
  k ≠ "email" →
  ((∀ k' v', (k', v') ∈ pre → k' = "email" ∨ Loops.allowed v' = true) →
   Loops.allowed v = false →
   ∃ w', Loops.validateFields env fields w =
           Ok (None, Some ("invalid field type for " +:+ k +:+ ": " +:+ typeName v)) w') ∧
  ((∀ k' v', (k', v') ∈ pre → k' = "email" ∨ Older.allowed v' = true) →
   Older.allowed v = false →
   ∃ w', Older.validateFields env ctx fields w =
           Ok (None, Some ("invalid field type for " +:+ k +:+ ": " +:+ typeName v)) w').
Proof.
  intros Horder Hk. split; intros Hpre Hv.
  - unfold Loops.validateFields. rewrite validateFields_with_run, Horder.
    rewrite first_invalid_app by done. by eexists.
  - unfold Older.validateFields. rewrite validateFields_with_run, Horder.
    rewrite first_invalid_app by done. by eexists.
Qed.

(** Ranged in reverse, the map below gives the name before the score. *)
Lemma validateFields_first_offender_witness :
  let w := Demo.world {[ "score" := AFloat64 0; "name" := AString "Ada" ]} in
  ∃ w', Loops.validateFields Demo.env_rev (Some 1%positive) w =
          Ok (None, Some "invalid field type for score: float64") w'.
Proof.
  intros w.
  destruct (validateFields_first_offender Demo.env_rev Demo.ctx (Some 1%positive) w
              [("name", AString "Ada")] "score" (AFloat64 0) [])
    as [Hloops _].
  - vm_compute. reflexivity.
  - discriminate.
  - apply Hloops.
    + intros k' v' Hin. apply list_elem_of_singleton in Hin.
      injection Hin as -> ->. right. reflexivity.
    + reflexivity.
Defined.

(** X8. In both files, validating the map a successful [validateFields]
    returned succeeds again and returns a map with the same contents: the
    input's entries without [email]. *)
Theorem validateFields_idempotent env ctx fields w l w' :
  range_ok env →
  (Loops.validateFields env fields w = Ok (Some l, None) w' →
   ∃ l2 w2,
     Loops.validateFields env (Some l) w' = Ok (Some l2, None) w2 ∧
     heap w2 !! l2 = heap w' !! l ∧
     heap w' !! l = Some (delete "email" (entries (heap w) fields))) ∧
  (Older.validateFields env ctx fields w = Ok (Some l, None) w' →
   ∃ l2 w2,
     Older.validateFields env ctx (Some l) w' = Ok (Some l2, None) w2 ∧
     heap w2 !! l2 = heap w' !! l ∧
     heap w' !! l = Some (delete "email" (entries (heap w) fields))).
Proof.
  intros Hrange. split; by apply validateFields_with_again.
Qed.

(** A map with an [email] entry, validated twice. *)
Lemma validateFields_idempotent_witness :
  let w := Demo.world {[ "email" := AInt64 0; "name" := AString "Ada";
                         "when" := ATime 5 ]} in
  ∃ w' l2 w2,
    Loops.validateFields Demo.env (Some 1%positive) w = Ok (Some 2%positive, None) w' ∧
    Loops.validateFields Demo.env (Some 2%positive) w' = Ok (Some l2, None) w2 ∧
    heap w2 !! l2 = heap w' !! 2%positive.
Proof.
  intros w.
  assert (∃ w', Loops.validateFields Demo.env (Some 1%positive) w =
                  Ok (Some 2%positive, None) w')
    as [w' Hrun] by (eexists; vm_compute; reflexivity).
  destruct (validateFields_idempotent Demo.env Demo.ctx (Some 1%positive) w
              2%positive w' range_ok_example) as [Hloops _].
  destruct (Hloops Hrun) as (l2 & w2 & Hrun2 & Hsame & _).
  exists w', l2, w2. split; [exact Hrun|]. split; [exact Hrun2|exact Hsame].
Defined.

(** X9. Whatever the older file's [validateFields] accepts, that of
    [loops.go] accepts too, with the same result and the same final world;
    and whatever [loops.go] rejects, the older file rejects. *)
Theorem validateFields_older_then_loops env ctx fields w :
  (∀ l w', Older.validateFields env ctx fields w = Ok (Some l, None) w' →
           Loops.validateFields env fields w = Ok (Some l, None) w') ∧
  (∀ err w', Loops.validateFields env fields w = Ok (None, Some err) w' →
     ∃ err' w'', Older.validateFields env ctx fields w = Ok (None, Some err') w'').
Proof.
  unfold Older.validateFields, Loops.validateFields.
  rewrite !validateFields_with_run. split.
  - intros l w'.
    destruct (first_invalid Older.allowed _) as [[k v]|] eqn:Hfi; [done|].
    destruct (first_invalid_Older_Loops _ ∅ Hfi) as [-> ->]. done.
  - intros err w'.
    destruct (first_invalid Older.allowed _) as [[k v]|] eqn:Hfi; [by eauto|].
    destruct (first_invalid_Older_Loops _ ∅ Hfi) as [-> _]. done.
Qed.

(** A contact with a name only passes both. *)
Lemma validateFields_older_then_loops_witness :
  let w := Demo.world {[ "name" := AString "Ada" ]} in
  ∃ w', Older.validateFields Demo.env Demo.ctx (Some 1%positive) w =
          Ok (Some 2%positive, None) w' ∧
        Loops.validateFields Demo.env (Some 1%positive) w =
          Ok (Some 2%positive, None) w'.
Proof.
  intros w.
  assert (∃ w', Older.validateFields Demo.env Demo.ctx (Some 1%positive) w =
                  Ok (Some 2%positive, None) w')
    as [w' Hrun] by (eexists; vm_compute; reflexivity).
  destruct (validateFields_older_then_loops Demo.env Demo.ctx (Some 1%positive) w)
    as [Hacc _].
  exists w'. split; [exact Hrun|exact (Hacc _ _ Hrun)].
Defined.

(** ** The operations: results, maps and bodies *)

Lemma always_bind {A B} (m : M A) (f : A → M B) P Q :
  always m P →
  (∀ w a w1, P w a w1 → ∃ b w', f a w1 = Ok b w' ∧ Q w b w') →
  always (m ≫= f) Q.
Proof.
  intros Hm Hf w. destruct (Hm w) as (a & w1 & Hrun & HP).
  destruct (Hf w a w1 HP) as (b & w' & Hrun' & HQ).
  exists b, w'. by rewrite (bind_Ok _ _ _ _ _ Hrun).
Qed.

Lemma always_weaken {A} (m : M A) (P Q : World → A → World → Prop) :
  always m P → (∀ w a w', P w a w' → Q w a w') → always m Q.
Proof.
  intros Hm HPQ w. destruct (Hm w) as (a & w' & Hrun & HP). eauto.
Qed.


Section operation_shapes.
Variables (env : Env) (c : Client) (ctx : Context).

(** The end every operation shares: the call of [doRequest] into a fresh
    response variable, and the choice between response and error. *)
Lemma call_always {R} (dec : Decoder R) (zero : R) method path body :
  always
    ('(err, resp) ← doRequest env dec c ctx method path body (Some zero);
     match err with
     | Some err => mret (None, Some err)
     | None => mret (resp, None)
     end)
    (λ w r w', heap w' = heap w ∧ response_xor_error r).
Proof.
  intros w. unfold mbind, M_bind. rewrite doRequest_run.
  destruct (newRequest _ _ _ _ _ _ _) as [req|err];
    [|do 2 eexists; split; [done|]; split; [done|right; by eexists]].
  destruct (default (http_DefaultClient env) (client c) req) as [resp|err];
    [|do 2 eexists; split; [done|]; split; [done|right; by eexists]].
  destruct (400 <=? StatusCode resp)%Z;
    [do 2 eexists; split; [done|]; split; [done|right; by eexists]|].
  destruct (dec (resp_Body resp) zero) as [[d' [err|]] n]; simpl.
  - do 2 eexists. split; [done|]. split; [done|right; by eexists].
  - do 2 eexists. split; [done|]. split; [done|left; by eexists].
Qed.


Section contact_shape.
Variable allowed : any → bool.
Context {R : Type} (dec : Decoder R) (zero : R) (method path email : string)
  (fields : mapref).

(** [CreateContact] and [UpsertContact], as both files write them. *)
Local Abbreviation contact_op :=
  ('(req, err) ← validateFields_with allowed env fields;
   match err with
   | Some err => mret (None, Some err)
   | None =>
       map_store req "email" (AString email);;
       '(err, resp) ← doRequest env dec c ctx method path (AMap req) (Some zero);
       match err with
       | Some err => mret (None, Some err)
       | None => mret (resp, None)
       end
   end).

Lemma contact_always :
  always contact_op (λ w r w', response_xor_error r ∧ maps_kept w w').
Proof.
  intros w.
  erewrite bind_Ok; [|apply validateFields_with_run].
  assert (∀ l, l ∈ dom (heap w) → fresh (dom (heap w)) ≠ l) as Hfresh.
  { intros l Hl <-. by apply (is_fresh (dom (heap w))). }
  destruct (first_invalid _ _) as [[k v]|].
  - do 2 eexists. split; [done|]. split; [right; by eexists|].
    intros l Hl. simpl. rewrite lookup_insert_ne; [done|by apply Hfresh].
  - erewrite bind_Ok; [|reflexivity].
    match goal with
    | |- context [_ ?w1 = Ok _ _] =>
        destruct (call_always dec zero method path
                    (AMap (Some (fresh (dom (heap w))))) w1)
          as (r & w' & Hrun & Hheap & Hxor)
    end.
    exists r, w'. split; [exact Hrun|]. split; [done|].
    intros l Hl. rewrite Hheap. simpl.
    rewrite !lookup_insert_ne; [done|by apply Hfresh..].
Qed.

(** What is marshalled is the input's entries with [email] set to the
    argument, whatever the input had under that key. *)
Lemma contact_body w :
  range_ok env →
  (∀ k v, entries (heap w) fields !! k = Some v → k ≠ "email" → allowed v = true) →
  ∃ r w', contact_op w = Ok r w' ∧
    ∀ req, requests (log w') = (requests (log w) ++ [req])%list →
      ∃ bytes,
        json_Marshal env
          (PMap (Some (<["email" := AString email]> (entries (heap w) fields)))) =
          inl bytes ∧
        req_Body req = Some bytes.
Proof.
  intros Hrange Hall.
  erewrite bind_Ok; [|by apply validateFields_with_accept]. cbv beta iota.
  erewrite bind_Ok; [|reflexivity].
  match goal with
  | |- context [(doRequest ?e ?d ?c ?x ?m ?p ?b ?dst ≫= ?f) ?w1] =>
      destruct (doRequest_requests e d c x m p b dst w1)
        as (r1 & w2 & Hrun & _ & Hreq);
      rewrite (bind_Ok _ f _ _ _ Hrun);
      destruct (result_returns r1 w2) as (b' & Hb)
  end.
  exists b', w2. split; [exact Hb|].
  intros req Hlog.
  pose proof (doRequest_sent _ _ _ _ _ _ _ _ _ _ _ _ Hrun Hlog) as Hnew.
  apply newRequest_inl in Hnew as (_ & _ & _ & Hbody & _).
  simpl in Hbody. rewrite lookup_insert_eq in Hbody. simpl in Hbody.
  rewrite lookup_insert_eq in Hbody. simpl in Hbody.
  by rewrite insert_delete_eq in Hbody.
Qed.

End contact_shape.

(** [DeleteContact], as both files write it. *)
Lemma delete_always method email :
  always
    (req ← map_make;
     map_store (Some req) "email" (AString email);;
     '(err, resp) ← doRequest env (decode_DeleteContactResponse env) c ctx
                      method "/contacts/delete" (AMap (Some req))
                      (Some {| dc_Success := false; dc_Message := "" |});
     match err with
     | Some err => mret (None, Some err)
     | None => mret (resp, None)
     end)
    (λ w r w', response_xor_error r ∧ maps_kept w w').
Proof.
  intros w.
  erewrite bind_Ok; [|reflexivity].
  erewrite bind_Ok; [|reflexivity].
  match goal with
  | |- context [_ ?w1 = Ok _ _] =>
      destruct (call_always (decode_DeleteContactResponse env)
                  {| dc_Success := false; dc_Message := "" |} method
                  "/contacts/delete" (AMap (Some (fresh (dom (heap w))))) w1)
        as (r & w' & Hrun & Hheap & Hxor)
  end.
  exists r, w'. split; [exact Hrun|]. split; [done|].
  intros l Hl. rewrite Hheap. simpl.
  assert (fresh (dom (heap w)) ≠ l) as Hne.
  { intros <-. by apply (is_fresh (dom (heap w))). }
  by rewrite !lookup_insert_ne.
Qed.

End operation_shapes.

(** X10. Every operation of both files returns from every world, and
    returns either a response and no error, or no response and an error:
    never both, never neither. *)
Theorem operations_response_xor_error env c ctx email fields ev tx :
  always (Loops.CreateContact env c ctx email fields) (λ _ r _, response_xor_error r) ∧
  always (Loops.UpsertContact env c ctx email fields) (λ _ r _, response_xor_error r) ∧
  always (Loops.DeleteContact env c ctx email) (λ _ r _, response_xor_error r) ∧
  always (Loops.SendEvent env c ctx ev) (λ _ r _, response_xor_error r) ∧
  always (Loops.SendTransactional env c ctx tx) (λ _ r _, response_xor_error r) ∧
  always (Older.CreateContact env c ctx email fields) (λ _ r _, response_xor_error r) ∧
  always (Older.UpsertContact env c ctx email fields) (λ _ r _, response_xor_error r) ∧
  always (Older.DeleteContact env c ctx email) (λ _ r _, response_xor_error r) ∧
  always (Older.SendEvent env c ctx ev) (λ _ r _, response_xor_error r).
Proof.
  repeat split.
  - eapply always_weaken; [apply (contact_always env c ctx Loops.allowed)|].
    by intros ??? [??].
  - eapply always_weaken; [apply (contact_always env c ctx Loops.allowed)|].
    by intros ??? [??].
  - eapply always_weaken; [apply delete_always|]. by intros ??? [??].
  - eapply always_weaken; [apply call_always|]. by intros ??? [??].
  - eapply always_weaken; [apply call_always|]. by intros ??? [??].
  - eapply always_weaken; [apply (contact_always env c ctx Older.allowed)|].
    by intros ??? [??].
  - eapply always_weaken; [apply (contact_always env c ctx Older.allowed)|].
    by intros ??? [??].
  - eapply always_weaken; [apply delete_always|]. by intros ??? [??].
  - eapply always_weaken; [apply call_always|]. by intros ??? [??].
Qed.

(** X11. No operation changes a map that existed before the call: the
    caller's field map is as it was after [CreateContact] and
    [UpsertContact], although they add [email] to the map they send, and the
    operations that take no field map leave the whole heap but for the map
    [DeleteContact] makes. *)
Theorem operations_keep_maps env c ctx email fields ev tx :
  always (Loops.CreateContact env c ctx email fields) (λ w _ w', maps_kept w w') ∧
  always (Loops.UpsertContact env c ctx email fields) (λ w _ w', maps_kept w w') ∧
  always (Loops.DeleteContact env c ctx email) (λ w _ w', maps_kept w w') ∧
  always (Loops.SendEvent env c ctx ev) (λ w _ w', heap w' = heap w) ∧
  always (Loops.SendTransactional env c ctx tx) (λ w _ w', heap w' = heap w) ∧
  always (Older.CreateContact env c ctx email fields) (λ w _ w', maps_kept w w') ∧
  always (Older.UpsertContact env c ctx email fields) (λ w _ w', maps_kept w w') ∧
  always (Older.DeleteContact env c ctx email) (λ w _ w', maps_kept w w') ∧
  always (Older.SendEvent env c ctx ev) (λ w _ w', heap w' = heap w).
Proof.
  repeat split.
  - eapply always_weaken; [apply (contact_always env c ctx Loops.allowed)|].
    by intros ??? [??].
  - eapply always_weaken; [apply (contact_always env c ctx Loops.allowed)|].
    by intros ??? [??].
  - eapply always_weaken; [apply delete_always|]. by intros ??? [??].
  - eapply always_weaken; [apply call_always|]. by intros ??? [??].
  - eapply always_weaken; [apply call_always|]. by intros ??? [??].
  - eapply always_weaken; [apply (contact_always env c ctx Older.allowed)|].
    by intros ??? [??].
  - eapply always_weaken; [apply (contact_always env c ctx Older.allowed)|].
    by intros ??? [??].
  - eapply always_weaken; [apply delete_always|]. by intros ??? [??].
  - eapply always_weaken; [apply call_always|]. by intros ??? [??].
Qed.

(** X12. When validation passes, the body [CreateContact] and
    [UpsertContact] send is the JSON of the input's entries with [email] set
    to the email argument: an [email] entry of the input is replaced, never
    sent. *)
Theorem contact_body_has_argument_email env c ctx email fields w :
  range_ok env →
  ((∀ k v, entries (heap w) fields !! k = Some v → k ≠ "email" →
      Loops.allowed v = true) →
   (∃ r w', Loops.CreateContact env c ctx email fields w = Ok r w' ∧
      ∀ req, requests (log w') = (requests (log w) ++ [req])%list →
        ∃ bytes,
          json_Marshal env
            (PMap (Some (<["email" := AString email]> (entries (heap w) fields)))) =
            inl bytes ∧
          req_Body req = Some bytes) ∧
   (∃ r w', Loops.UpsertContact env c ctx email fields w = Ok r w' ∧
      ∀ req, requests (log w') = (requests (log w) ++ [req])%list →
        ∃ bytes,
          json_Marshal env
            (PMap (Some (<["email" := AString email]> (entries (heap w) fields)))) =
            inl bytes ∧
          req_Body req = Some bytes)) ∧
  ((∀ k v, entries (heap w) fields !! k = Some v → k ≠ "email" →
      Older.allowed v = true) →
   (∃ r w', Older.CreateContact env c ctx email fields w = Ok r w' ∧
      ∀ req, requests (log w') = (requests (log w) ++ [req])%list →
        ∃ bytes,
          json_Marshal env
            (PMap (Some (<["email" := AString email]> (entries (heap w) fields)))) =
            inl bytes ∧
          req_Body req = Some bytes) ∧
   (∃ r w', Older.UpsertContact env c ctx email fields w = Ok r w' ∧
      ∀ req, requests (log w') = (requests (log w) ++ [req])%list →
        ∃ bytes,
          json_Marshal env
            (PMap (Some (<["email" := AString email]> (entries (heap w) fields)))) =
            inl bytes ∧
          req_Body req = Some bytes)).
Proof.
  intros Hrange. split; intros Hall; split.
  - by apply (contact_body env c ctx Loops.allowed).
  - by apply (contact_body env c ctx Loops.allowed).
  - by apply (contact_body env c ctx Older.allowed).
  - by apply (contact_body env c ctx Older.allowed).
Qed.

(** A marshaller that tells whether the map it is given has the argument's
    email: the input's own [email] entry is not what is sent. *)
Lemma contact_body_has_argument_email_witness :
  let marshal (p : Payload) : string + error :=
    match p with
    | PMap (Some m) =>
        match m !! "email" with
        | Some (AString "new@b.c") => inl "new"
        | _ => inl "other"
        end
    | _ => inl "other"
    end in
  let env := Demo.env_with map_to_list marshal (λ _ _ _, None) in
  let w := Demo.world {[ "email" := AString "old@b.c"; "name" := AString "Ada" ]} in
  ∃ r w' req,
    Loops.CreateContact env Demo.cl Demo.ctx "new@b.c" (Some 1%positive) w = Ok r w' ∧
    requests (log w') = [req] ∧ req_Body req = Some "new".
Proof.
  intros marshal env w.
  assert (range_ok env) as Hrange by (intros m; reflexivity).
  destruct (contact_body_has_argument_email env Demo.cl Demo.ctx "new@b.c"
              (Some 1%positive) w Hrange) as [Hloops _].
  destruct Hloops as [(r & w' & Hrun & Hbody) _].
  { intros k v Hkv Hk. unfold w, Demo.world, entries in Hkv.
    cbn [heap] in Hkv. rewrite lookup_singleton_eq in Hkv.
    cbn [default from_option id] in Hkv.
    rewrite lookup_insert_ne in Hkv by congruence.
    apply lookup_singleton_Some in Hkv as [_ <-]. reflexivity. }
  assert (∃ req, requests (log w') = (requests (log w) ++ [req])%list)
    as [req Hlog].
  { assert (∃ r0 w0 req,
      Loops.CreateContact env Demo.cl Demo.ctx "new@b.c" (Some 1%positive) w =
        Ok r0 w0 ∧ requests (log w0) = [req]) as (r0 & w0 & req & Hrun0 & Hlog0)
      by (do 3 eexists; split; vm_compute; reflexivity).
    rewrite Hrun in Hrun0. injection Hrun0 as <- <-. exists req. exact Hlog0. }
  destruct (Hbody req Hlog) as (bytes & Hm & Hb).
  exists r, w', req. split; [exact Hrun|]. split; [exact Hlog|].
  rewrite Hb. f_equal.
  assert (marshal (PMap (Some (<["email" := AString "new@b.c"]>
                                 (entries (heap w) (Some 1%positive))))) = inl "new")
    as Hnew by (vm_compute; reflexivity).
  change (json_Marshal env) with marshal in Hm. rewrite Hnew in Hm.
  injection Hm as <-. reflexivity.
Defined.





(** ** The endpoint: how much [WithEndpoint] removes *)

Lemma append_assoc s t u : (s +:+ t) +:+ u = s +:+ (t +:+ u).
Proof.
  induction s as [|a s IH]; [done|].
  change (String a ((s +:+ t) +:+ u) = String a (s +:+ (t +:+ u))).
  by rewrite IH.
Qed.

Lemma HasSuffix_app s t : HasSuffix (s +:+ t) t = true.
Proof.
  unfold HasSuffix. rewrite length_append.
  replace (String.length s + String.length t - String.length t)
    with (String.length s) by lia.
  rewrite substring_suffix, String.eqb_refl, andb_true_r.
  apply Nat.leb_le. lia.
Qed.

(** X15. [WithEndpoint] removes at most one character: the argument is the
    stored endpoint, or the stored endpoint followed by one slash.  So the
    stored endpoint still ends in a slash exactly when the argument ended in
    two. *)
Theorem WithEndpoint_at_most_one c e :
  (e = endpoint (WithEndpoint c e) ∨ e = endpoint (WithEndpoint c e) +:+ "/") ∧
  ((∃ s, endpoint (WithEndpoint c e) = s +:+ "/") ↔ (∃ s, e = s +:+ "//")).
Proof.
  simpl. split.
  - unfold TrimSuffix. destruct (HasSuffix e "/") eqn:Hsuf; [|by left].
    right. apply HasSuffix_true in Hsuf as [s ->].
    fold (TrimSuffix (s +:+ "/") "/").
    assert (TrimSuffix (s +:+ "/") "/" = s) as Htrim by apply TrimSuffix_app.
    unfold TrimSuffix in Htrim. rewrite HasSuffix_app in Htrim. by rewrite Htrim.
  - split.
    + intros [s Hs]. exists s. unfold TrimSuffix in Hs.
      destruct (HasSuffix e "/") eqn:Hsuf.
      * apply HasSuffix_true in Hsuf as [s' ->].
        assert (TrimSuffix (s' +:+ "/") "/" = s') as Htrim by apply TrimSuffix_app.
        unfold TrimSuffix in Htrim. rewrite HasSuffix_app in Htrim.
        rewrite Htrim in Hs. subst s'. by rewrite append_assoc.
      * subst e. by rewrite HasSuffix_app in Hsuf.
    + intros [s ->]. exists s.
      change (s +:+ "//") with (s +:+ ("/" +:+ "/")).
      rewrite <- append_assoc. apply TrimSuffix_app.
Qed.

(** ** A client as [NewClient] makes it *)

(** X16. A client made by [NewClient] and used without any setter sends its
    requests to the default endpoint followed by the path, with the header
    Authorization: Bearer <key> unless the key is empty, and through the
    default HTTP client: an error of that client is the error of the
    call. *)
Theorem NewClient_requests {T} env (dec : Decoder T) key ctx method path body dst
    w r w' req :
  doRequest env dec (NewClient env key) ctx method path body dst w = Ok r w' →
  requests (log w') = (requests (log w) ++ [req])%list →
  req_URL req = "https://app.loops.so/api/v1" +:+ path ∧
  req_Header req !! "Authorization" =
    (if decide (key = "") then None else Some ("Bearer " +:+ key)) ∧
  (∀ err, http_DefaultClient env req = inr err → r = (Some err, dst)).
Proof.
  intros Hrun Hlog.
  pose proof (doRequest_sent _ _ _ _ _ _ _ _ _ _ _ _ Hrun Hlog) as Hnew.
  pose proof (newRequest_inl _ _ _ _ _ _ _ _ Hnew) as (_ & _ & Hurl & _ & _ & Hauth).
  split; [done|]. split; [done|].
  intros err Herr. rewrite doRequest_run, Hnew in Hrun. simpl in Hrun.
  rewrite Herr in Hrun. by injection Hrun as <- _.
Qed.

(** A new client with a key, on the example environment. *)
Lemma NewClient_requests_witness :
  ∃ r w' req,
    doRequest Demo.env (Demo.accept : Decoder unit) (NewClient Demo.env "secret")
      Demo.ctx "POST" "/events/send" ANil None (Demo.world ∅) = Ok r w' ∧
    req_URL req = "https://app.loops.so/api/v1/events/send" ∧
    req_Header req !! "Authorization" = Some "Bearer secret".
Proof.
  assert (∃ r w' req,
    doRequest Demo.env (Demo.accept : Decoder unit) (NewClient Demo.env "secret")
      Demo.ctx "POST" "/events/send" ANil None (Demo.world ∅) = Ok r w' ∧
    requests (log w') = (requests (log (Demo.world ∅)) ++ [req])%list)
    as (r & w' & req & Hrun & Hlog)
    by (do 3 eexists; split; vm_compute; reflexivity).
  destruct (NewClient_requests Demo.env (Demo.accept : Decoder unit) "secret"
              Demo.ctx "POST" "/events/send" ANil None (Demo.world ∅) r w' req
              Hrun Hlog) as (Hurl & Hauth & _).
  exists r, w', req. split; [exact Hrun|]. split; [exact Hurl|exact Hauth].
Defined.
